(** * pwn-notion-ticket-bot: the ticket mirror of [main.py]

    A shallow embedding of [main.py]: the channel-name classifier, the
    link splitter, the ticket-to-page store with its save file and the
    event handlers, followed by the properties the specification states
    about them.

    Python [str] values are lists of characters; a character is a code
    point below 256 (Rocq's [ascii]).  Python exceptions are values of
    [exn]; code that can raise lives in an error monad.  [init_database]
    and [handle_closed_by_resolution], which no event reaches, are left
    out. *)

From Stdlib Require Import ZArith Lia List Ascii String Bool DecimalString.
From Stdlib Require DecimalPos.
From stdpp Require Import base option list gmap.

Local Open Scope Z_scope.
Local Open Scope list_scope.

(* ================================================================= *)
(** ** Strings *)

Definition str := list ascii.

(** A string literal of the source. *)
Definition lit (s : string) : str := list_ascii_of_string s.

Definition code (c : ascii) : nat := nat_of_ascii c.

(** The line feed, ["\n"]. *)
Definition LF : ascii := ascii_of_nat 10.

Definition char_eqb (a b : ascii) : bool := Ascii.eqb a b.

Fixpoint str_eqb (a b : str) : bool :=
  match a, b with
  | [], [] => true
  | x :: a', y :: b' => char_eqb x y && str_eqb a' b'
  | _, _ => false
  end.

(** [\s] of a [str] pattern, which is also what [str.strip] strips:
    CPython's [Py_UNICODE_ISSPACE], below 256. *)
Definition is_space (c : ascii) : bool :=
  let n := code c in
  ((9 <=? n) && (n <=? 13) || (28 <=? n) && (n <=? 32)
   || (n =? 133) || (n =? 160))%nat.

(** [.] without [re.DOTALL]: anything but a line feed. *)
Definition is_dot (c : ascii) : bool := negb (code c =? 10)%nat.

(** [\d], below 256: the ten ASCII digits. *)
Definition is_digit (c : ascii) : bool :=
  ((48 <=? code c) && (code c <=? 57))%nat.

(** [s.startswith(p)], returning what follows the prefix. *)
Fixpoint strip_prefix (p s : str) : option str :=
  match p with
  | [] => Some s
  | x :: p' =>
      match s with
      | [] => None
      | y :: s' => if char_eqb x y then strip_prefix p' s' else None
      end
  end.

Definition startswith (s p : str) : bool :=
  match strip_prefix p s with Some _ => true | None => false end.

(** [p in s]. *)
Fixpoint contains (s p : str) : bool :=
  startswith s p ||
  match s with
  | [] => false
  | _ :: s' => contains s' p
  end.

(* ================================================================= *)
(** ** Exceptions *)

Inductive exn :=
| IndexError (what : str)
| ValueError (what : str)
| TypeError (what : str)
| KeyError (key : str)
| RemoteError (what : str).

(** [str(e)], as the handlers log it. *)
Definition exn_str (e : exn) : str :=
  match e with
  | IndexError w | ValueError w | TypeError w | KeyError w
  | RemoteError w => w
  end.

Inductive result (A : Type) :=
| Ok (a : A)
| Err (e : exn).
Arguments Ok {A} a.
Arguments Err {A} e.

(* ================================================================= *)
(** ** Regular expressions

    The part of Python's [re] that the program uses: a backtracking
    matcher.  [runs r s c] lists every way [r] can match at the head of
    [s], in the order in which backtracking tries them; a run is the
    text consumed, the text left and the groups captured. *)

Inductive regex :=
| Empty
| Class (p : ascii -> bool)
| Seq (r1 r2 : regex)
| Alt (r1 r2 : regex)
| Star (greedy : bool) (r : regex)
| Group (i : nat) (r : regex).

Definition caps := list (nat * str).

Definition run : Type := str * str * caps.

Fixpoint cap_get (c : caps) (i : nat) : option str :=
  match c with
  | [] => None
  | (j, t) :: c' => if (i =? j)%nat then Some t else cap_get c' i
  end.

Definition extend (a : str) (x : run) : run :=
  let '(b, s, c) := x in (a ++ b, s, c).

(** The loop of [r*] and [r*?] over the runs [body] of [r]: a greedy
    loop tries another round before it tries to stop, a lazy one
    after; a round that consumes nothing is not repeated, and [n]
    bounds the rounds by the characters left. *)
Fixpoint star_loop (body : str -> caps -> list run) (greedy : bool)
                   (n : nat) (s : str) (c : caps) : list run :=
  let again :=
    match n with
    | O => []
    | S n' =>
        flat_map (fun x : run =>
                    let '(a, s1, c1) := x in
                    match a with
                    | [] => []
                    | _ :: _ => map (extend a) (star_loop body greedy n' s1 c1)
                    end)
                 (body s c)
    end in
  if greedy then again ++ [([], s, c)] else ([], s, c) :: again.

Fixpoint runs (r : regex) (s : str) (c : caps) : list run :=
  match r with
  | Empty => [([], s, c)]
  | Class p =>
      match s with
      | x :: s' => if p x then [([x], s', c)] else []
      | [] => []
      end
  | Seq r1 r2 =>
      flat_map (fun x : run =>
                  let '(a, s1, c1) := x in map (extend a) (runs r2 s1 c1))
               (runs r1 s c)
  | Alt r1 r2 => runs r1 s c ++ runs r2 s c
  | Star greedy r1 => star_loop (runs r1) greedy (List.length s) s c
  | Group i r1 =>
      map (fun x : run => let '(a, s1, c1) := x in (a, s1, (i, a) :: c1))
          (runs r1 s c)
  end.

(** The literal [w]. *)
Fixpoint Lit (w : str) : regex :=
  match w with
  | [] => Empty
  | x :: w' => Seq (Class (char_eqb x)) (Lit w')
  end.

(** [r?] and [r+], greedy. *)
Definition Opt (r : regex) : regex := Alt r Empty.
Definition Plus (r : regex) : regex := Seq r (Star true r).

(** A match object: the text matched, the text after it and the groups. *)
Record Match := mkMatch {
  m_text : str;
  m_rest : str;
  m_caps : caps
}.

Definition match_of (x : run) : Match :=
  let '(a, s, c) := x in mkMatch a s c.

(** [pattern.match(string)]: anchored at the start, first run wins. *)
Definition re_match (r : regex) (s : str) : option Match :=
  match runs r s [] with
  | [] => None
  | x :: _ => Some (match_of x)
  end.

(** [pattern.search(string)]: the leftmost start that matches. *)
Fixpoint re_search (r : regex) (s : str) : option Match :=
  match re_match r s with
  | Some m => Some m
  | None =>
      match s with
      | [] => None
      | _ :: s' => re_search r s'
      end
  end.

(** [pattern.findall(string)]: the matches from left to right, each
    search resuming where the last match ended (one character further
    after an empty match). *)
Fixpoint findall_from (n : nat) (r : regex) (s : str) : list Match :=
  match n with
  | O => []
  | S n' =>
      match re_search r s with
      | None => []
      | Some m =>
          m :: match m_text m, m_rest m with
               | [], [] => []
               | [], _ :: s' => findall_from n' r s'
               | _ :: _, s' => findall_from n' r s'
               end
      end
  end.

Definition findall (r : regex) (s : str) : list Match :=
  findall_from (S (List.length s)) r s.

(** [m.group(i)] as [findall] reports it: a group that took no part is
    the empty string. *)
Definition group_text (m : Match) (i : nat) : str :=
  match cap_get (m_caps m) i with
  | Some t => t
  | None => []
  end.

(** [URL_REGEX_COMPILED = re.compile(r"(.*?)(https?://[^\s]+)")] *)
Definition URL_REGEX_COMPILED : regex :=
  Seq (Group 1 (Star false (Class is_dot)))
      (Group 2 (Seq (Lit (lit "http"))
               (Seq (Opt (Lit (lit "s")))
               (Seq (Lit (lit "://"))
                    (Plus (Class (fun c => negb (is_space c)))))))).

(* ================================================================= *)
(** ** The link splitter *)

Definition bind_result {A B} (x : result A) (f : A -> result B) : result B :=
  match x with
  | Ok a => f a
  | Err e => Err e
  end.

Notation "x <-r e1 ;; e2" := (bind_result e1 (fun x => e2))
  (at level 100, e1 at next level, right associativity).

(** [l[-1]] *)
Fixpoint last_item {A} (l : list A) : result A :=
  match l with
  | [] => Err (IndexError (lit "list index out of range"))
  | [x] => Ok x
  | _ :: l' => last_item l'
  end.

(** [s.split(sep)]: the pieces between the occurrences of [sep], found
    from left to right without overlap.  [piece] is the piece being
    read. *)
Fixpoint split_from (n : nat) (sep piece s : str) : list str :=
  match n with
  | O => [piece ++ s]
  | S n' =>
      match strip_prefix sep s with
      | Some rest => piece :: split_from n' sep [] rest
      | None =>
          match s with
          | [] => [piece]
          | x :: s' => split_from n' sep (piece ++ [x]) s'
          end
      end
  end.

Definition py_split (s sep : str) : result (list str) :=
  match sep with
  | [] => Err (ValueError (lit "empty separator"))
  | _ :: _ => Ok (split_from (S (List.length s)) sep [] s)
  end.

(** One round of the loop over [matches]; [match[0]] and [match[1]] are
    the two groups of the pattern. *)
Definition add_match (parts : list str) (m : Match) : list str :=
  let parts :=
    if str_eqb (group_text m 1) [] then parts
    else parts ++ [group_text m 1] in
  if str_eqb (group_text m 2) [] then parts
  else parts ++ [group_text m 2].

Definition split_message_by_link (message : str) : result (list str) :=
  let matches := findall URL_REGEX_COMPILED message in
  match matches with
  | [] => Ok [message]
  | _ :: _ =>
      let parts := fold_left add_match matches [] in
      sep <-r last_item parts ;;
      trailing_split <-r py_split message sep ;;
      trailing <-r last_item trailing_split ;;
      Ok (if str_eqb trailing [] then parts else parts ++ [trailing])
  end.

(* ================================================================= *)
(** ** Integers and their text *)

(** The most digits that [int] reads: the default of
    [sys.int_max_str_digits]. *)
Definition int_max_str_digits : nat := 4300.

(** [str(n)] and the [{n}] of an f-string.  [str] has the same limit
    on the digits as [int]; every number that the program writes was
    returned by [int], which keeps it within the limit
    ([py_int_in_limit]), or counts the lines of the save file, so the
    limit of [str] is never met and is left out. *)
Definition py_str (n : Z) : str :=
  lit (DecimalString.NilZero.string_of_int (Z.to_int n)).

(** [{ticket_number}] where the number may be [None]. *)
Definition py_str_opt (n : option Z) : str :=
  match n with
  | Some n => py_str n
  | None => lit "None"
  end.

(** White space taken off the head, and off both ends, where [sp]
    tells what white space is. *)
Fixpoint lstrip_by (sp : ascii -> bool) (s : str) : str :=
  match s with
  | [] => []
  | c :: s' => if sp c then lstrip_by sp s' else s
  end.

Definition strip_by (sp : ascii -> bool) (s : str) : str :=
  rev (lstrip_by sp (rev (lstrip_by sp s))).

(** [s.strip()] *)
Definition strip (s : str) : str := strip_by is_space s.

(** The white space that [int] skips around a literal: that of ASCII,
    and [U+0085] and [U+00A0], which it first turns into spaces.  The
    separators [U+001C] to [U+001F], which [str.strip] takes off, are
    not among them: [int] refuses a text that begins or ends with
    one. *)
Definition is_int_space (c : ascii) : bool :=
  let n := code c in
  ((9 <=? n) && (n <=? 13) || (n =? 32) || (n =? 133) || (n =? 160))%nat.

Definition digit_val (c : ascii) : Z := Z.of_nat (code c) - 48.

(** The digits of an integer literal, where one underscore may stand
    between two digits; [prev] tells what was read last. *)
Inductive prev_char := NoChar | ADigit | AnUnderscore.

Fixpoint digits (acc : Z) (prev : prev_char) (s : str) : option Z :=
  match s with
  | [] => match prev with ADigit => Some acc | _ => None end
  | c :: s' =>
      if is_digit c then digits (10 * acc + digit_val c) ADigit s'
      else if char_eqb c "_" then
        match prev with
        | ADigit => digits acc AnUnderscore s'
        | _ => None
        end
      else None
  end.

(** How many digits a text has. *)
Definition count_digits (s : str) : nat :=
  List.length (List.filter is_digit s).

(** [int(s)] of a string in base ten: white space around the literal is
    skipped, and a literal of more than [int_max_str_digits] digits is
    refused.  The messages of the [ValueError] are given up to the
    literal and the number of digits that they quote; a text that is
    no literal gets the first one, also where an interpreter counts
    its digits before it reads it to the end. *)
Definition py_int (s : str) : result Z :=
  let t := strip_by is_int_space s in
  let r :=
    match t with
    | c :: t' =>
        if char_eqb c "-" then option_map Z.opp (digits 0 NoChar t')
        else if char_eqb c "+" then digits 0 NoChar t'
        else digits 0 NoChar t
    | [] => None
    end in
  match r with
  | Some n =>
      if (int_max_str_digits <? count_digits t)%nat then
        Err (ValueError
               (lit "Exceeds the limit (4300 digits) for integer string conversion"))
      else Ok n
  | None =>
      Err (ValueError (lit "invalid literal for int() with base 10"))
  end.

(* ================================================================= *)
(** ** Compiled patterns and the configuration *)

(** A compiled pattern as the program observes it: what
    [pattern.match(string)] returns and how many groups it has. *)
Record Pattern := mkPattern {
  pat_match : str -> option Match;
  pat_groups : nat
}.

Fixpoint max_group (r : regex) : nat :=
  match r with
  | Empty | Class _ => O
  | Seq r1 r2 | Alt r1 r2 => Nat.max (max_group r1) (max_group r2)
  | Star _ r1 => max_group r1
  | Group i r1 => Nat.max i (max_group r1)
  end.

(** [re.compile] of a pattern the matcher above covers. *)
Definition compile (r : regex) : Pattern :=
  mkPattern (re_match r) (max_group r).

(** [m.group(i)] on a match of [p], for a group [i] from 1 on: [None]
    for a group that took no part, [IndexError] for a group the pattern
    does not have. *)
Definition group (p : Pattern) (m : Match) (i : nat) : result (option str) :=
  if (i <=? pat_groups p)%nat then Ok (cap_get (m_caps m) i)
  else Err (IndexError (lit "no such group")).

(** [int(m.group(i))] *)
Definition int_group (p : Pattern) (m : Match) (i : nat) : result Z :=
  g <-r group p m i ;;
  match g with
  | Some t => py_int t
  | None =>
      Err (TypeError (lit "int() argument must be a string, a bytes-like object or a real number, not 'NoneType'"))
  end.

(** The environment variables the program reads at start. *)
Record Config := mkConfig {
  DISCORD_OPEN_TICKET_CHANNEL_NAME_REGEX : Pattern;
  DISCORD_CLOSED_TICKET_CHANNEL_NAME_REGEX : Pattern;
  DISCORD_TICKET_START_MESSAGE : str;
  DISCORD_TICKET_BOT_ID : Z;
  NOTION_PARENT_DATABASE_ID : str
}.

Inductive ChannelType := OPEN_TICKET | CLOSED_TICKET | UNKNOWN.

Definition ChannelType_eqb (a b : ChannelType) : bool :=
  match a, b with
  | OPEN_TICKET, OPEN_TICKET
  | CLOSED_TICKET, CLOSED_TICKET
  | UNKNOWN, UNKNOWN => true
  | _, _ => false
  end.

(** What the program reads of the chat platform's objects. *)
Record GuildChannel := mkChannel {
  channel_name : str;
  channel_jump_url : str
}.

Record User := mkUser {
  user_id : Z;
  user_name : str
}.

Record Message := mkMessage {
  message_channel : GuildChannel;
  message_author : User;
  message_content : str;
  message_mentions : list User;
  message_attachments : list str
}.

(** [cached_regex]: [lru_cache] memoises a function without effects, so
    the cache is not observable and the call is [pattern.match]. *)
Definition cached_regex (pattern : Pattern) (s : str) : option Match :=
  pat_match pattern s.

Definition get_channel_info (cfg : Config) (channel : GuildChannel)
  : result (ChannelType * option Z) :=
  match cached_regex (DISCORD_OPEN_TICKET_CHANNEL_NAME_REGEX cfg)
                     (channel_name channel) with
  | Some res =>
      n <-r int_group (DISCORD_OPEN_TICKET_CHANNEL_NAME_REGEX cfg) res 1 ;;
      Ok (OPEN_TICKET, Some n)
  | None =>
      match cached_regex (DISCORD_CLOSED_TICKET_CHANNEL_NAME_REGEX cfg)
                         (channel_name channel) with
      | Some res =>
          n <-r int_group (DISCORD_CLOSED_TICKET_CHANNEL_NAME_REGEX cfg)
                          res 1 ;;
          Ok (CLOSED_TICKET, Some n)
      | None => Ok (UNKNOWN, None)
      end
  end.

Definition get_mentioned_users (message : Message) : list str :=
  map user_name (message_mentions message).

(* ================================================================= *)
(** ** The state of the process and of what it talks to *)

Inductive LogLine :=
| LogInfo (text : str)
| LogError (text : str).

(** The requests the program sends to the workspace API. *)
Record RichText := mkRichText {
  rt_content : str;
  rt_link : option str;
  rt_bold : bool
}.

Inductive Block :=
| Paragraph (rich_text : list RichText)
| Image (url : str).

Inductive TicketStatus := StatusOpen | StatusClosed.

Inductive Request :=
| PagesCreate (database_id title : str) (status : TicketStatus)
              (created_at related_links : str)
| PagesUpdateAuthor (page_id author : str)
| PagesUpdateStatus (page_id : str) (status : TicketStatus)
                    (closed_at : str)
| BlocksChildrenAppend (block_id : str) (children : list Block).

(** What the world gives one event: the clock, and what the workspace
    API answers to the request of that event, a record with its [id] or
    a failure. *)
Inductive Reply :=
| Replied (id : str)
| Failed (what : str).

Record World := mkWorld {
  now : str;
  reply : Reply
}.

(** [TICKET_TO_PAGE_ID] is keyed by what [get_channel_info] gives as a
    ticket number, an [int] or [None]; [save_file] is the text of the
    file at [SAVE_FILE_PATH]; [log] is what [logger] has written and
    [requests] what has been sent to the workspace API, oldest first. *)
Record State := mkState {
  TICKET_TO_PAGE_ID : gmap (option Z) str;
  save_file : str;
  log : list LogLine;
  requests : list Request
}.

(** Code that reads and writes the state and may raise. *)
Definition M (A : Type) : Type := State -> result A * State.

Definition ret {A} (a : A) : M A := fun st => (Ok a, st).

Definition raise {A} (e : exn) : M A := fun st => (Err e, st).

Definition bind {A B} (m : M A) (f : A -> M B) : M B :=
  fun st =>
    match m st with
    | (Ok a, st') => f a st'
    | (Err e, st') => (Err e, st')
    end.

Notation "x <- e1 ;; e2" := (bind e1 (fun x => e2))
  (at level 100, e1 at next level, right associativity).
Notation "e1 ;; e2" := (bind e1 (fun _ => e2))
  (at level 100, right associativity).

(** [try: body except Exception as e: handler(e)]; what [body] did to
    the state before it raised stays done. *)
Definition try_except {A} (body : M A) (handler : exn -> M A) : M A :=
  fun st =>
    match body st with
    | (Ok a, st') => (Ok a, st')
    | (Err e, st') => handler e st'
    end.

Definition lift {A} (r : result A) : M A := fun st => (r, st).

Definition logger_info (text : str) : M unit :=
  fun st => (Ok tt, mkState (TICKET_TO_PAGE_ID st) (save_file st)
                            (log st ++ [LogInfo text]) (requests st)).

Definition logger_error (text : str) : M unit :=
  fun st => (Ok tt, mkState (TICKET_TO_PAGE_ID st) (save_file st)
                            (log st ++ [LogError text]) (requests st)).

(** [TICKET_TO_PAGE_ID[ticket_number]] *)
Definition page_of (ticket_number : option Z) : M str :=
  fun st =>
    match TICKET_TO_PAGE_ID st !! ticket_number with
    | Some page_id => (Ok page_id, st)
    | None => (Err (KeyError (py_str_opt ticket_number)), st)
    end.

(** [TICKET_TO_PAGE_ID[ticket_number] = page_id] *)
Definition set_page (ticket_number : option Z) (page_id : str) : M unit :=
  fun st => (Ok tt, mkState (<[ticket_number := page_id]> (TICKET_TO_PAGE_ID st))
                            (save_file st) (log st) (requests st)).

(** [with open(SAVE_FILE_PATH, "a") as f: f.write(text)]; the file
    system is taken to accept the write. *)
Definition append_save_file (text : str) : M unit :=
  fun st => (Ok tt, mkState (TICKET_TO_PAGE_ID st) (save_file st ++ text)
                            (log st) (requests st)).

(** A call of the workspace API: the request goes out, and the call
    returns the record's [id] or raises. *)
Definition notion (w : World) (req : Request) : M str :=
  fun st =>
    let st' := mkState (TICKET_TO_PAGE_ID st) (save_file st) (log st)
                       (requests st ++ [req]) in
    match reply w with
    | Replied id => (Ok id, st')
    | Failed what => (Err (RemoteError what), st')
    end.

(* ================================================================= *)
(** ** The handlers *)

Section Handlers.

Variable cfg : Config.
Variable w : World.

Definition handle_author_resolution (message : Message)
                                    (ticket_number : option Z) : M unit :=
  let mentioned_users := get_mentioned_users message in
  match mentioned_users with
  | [] =>
      logger_error (lit "No user mentioned in message "
                    ++ message_content message ++ lit " for ticket "
                    ++ py_str_opt ticket_number)
  | username :: _ =>
      shown <- page_of ticket_number ;;
      logger_info (lit "Resolving ticket " ++ py_str_opt ticket_number
                   ++ lit " to " ++ username ++ lit " on Notion page "
                   ++ shown) ;;
      page_id <- page_of ticket_number ;;
      try_except
        (notion w (PagesUpdateAuthor page_id username) ;; ret tt)
        (fun e => logger_error (lit "Error resolving ticket: "
                                ++ exn_str e))
  end.

(** The rich text of one part of a message. *)
Definition rich_text_of (part : str) : RichText :=
  if startswith part (lit "http")
  then mkRichText part (Some part) false
  else mkRichText part None false.

Definition handle_content_update (message : Message)
                                 (ticket_number : option Z) : M unit :=
  let message_content := message_content message in
  let author := user_name (message_author message) in
  try_except
    (page_id <- page_of ticket_number ;;
     message_parts <- lift (split_message_by_link message_content) ;;
     let rich_texts :=
       mkRichText (author ++ lit ": ") None true
       :: map rich_text_of message_parts in
     notion w (BlocksChildrenAppend page_id
                 (Paragraph rich_texts
                  :: map Image (message_attachments message))) ;;
     logger_info (lit "Updated ticket content for ticket "
                  ++ py_str_opt ticket_number))
    (fun e => logger_error (lit "Error updating ticket content: "
                            ++ exn_str e)).

(** [client_user] is the text of [client.user]. *)
Definition on_ready (client_user : str) : M unit :=
  logger_info (lit "We have logged in as " ++ client_user).

Definition on_guild_channel_create (channel : GuildChannel) : M unit :=
  info <- lift (get_channel_info cfg channel) ;;
  let '(channel_type, ticket_number) := info in
  if negb (ChannelType_eqb channel_type OPEN_TICKET) then ret tt
  else
    try_except
      (page_id <- notion w (PagesCreate (NOTION_PARENT_DATABASE_ID cfg)
                              (lit "Ticket #" ++ py_str_opt ticket_number)
                              StatusOpen (now w)
                              (channel_jump_url channel)) ;;
       set_page ticket_number page_id ;;
       append_save_file (py_str_opt ticket_number ++ lit "," ++ page_id
                         ++ [LF]) ;;
       logger_info (lit "Created Notion page for ticket "
                    ++ py_str_opt ticket_number ++ lit ": " ++ page_id))
      (fun e => logger_error (lit "Error creating Notion page for ticket "
                              ++ py_str_opt ticket_number ++ lit ": "
                              ++ exn_str e)).

(** The [try] block that [on_guild_channel_delete] and
    [on_guild_channel_update] share word for word. *)
Definition close_page (ticket_number : option Z) : M unit :=
  try_except
    (page_id <- page_of ticket_number ;;
     notion w (PagesUpdateStatus page_id StatusClosed (now w)) ;;
     logger_info (lit "Updated Notion page for ticket "
                  ++ py_str_opt ticket_number ++ lit " to closed"))
    (fun e => logger_error (lit "Error updating Notion page for ticket "
                            ++ py_str_opt ticket_number ++ lit ": "
                            ++ exn_str e)).

Definition on_guild_channel_delete (channel : GuildChannel) : M unit :=
  info <- lift (get_channel_info cfg channel) ;;
  let '(channel_type, ticket_number) := info in
  if negb (ChannelType_eqb channel_type OPEN_TICKET) then ret tt
  else close_page ticket_number.

Definition on_guild_channel_update (before after : GuildChannel) : M unit :=
  info <- lift (get_channel_info cfg before) ;;
  let '(before_channel_type, _) := info in
  if negb (ChannelType_eqb before_channel_type OPEN_TICKET) then ret tt
  else
    info <- lift (get_channel_info cfg after) ;;
    let '(after_channel_type, ticket_number) := info in
    if negb (ChannelType_eqb after_channel_type CLOSED_TICKET) then ret tt
    else close_page ticket_number.

Definition on_message (message : Message) : M unit :=
  info <- lift (get_channel_info cfg (message_channel message)) ;;
  let '(channel_type, ticket_number) := info in
  if ChannelType_eqb channel_type UNKNOWN then ret tt
  else if ChannelType_eqb channel_type OPEN_TICKET
          && (user_id (message_author message)
              =? DISCORD_TICKET_BOT_ID cfg)
          && contains (message_content message)
                      (DISCORD_TICKET_START_MESSAGE cfg)
  then handle_author_resolution message ticket_number
  else if ChannelType_eqb channel_type OPEN_TICKET
          && negb (user_id (message_author message)
                   =? DISCORD_TICKET_BOT_ID cfg)
  then handle_content_update message ticket_number
  else ret tt.

End Handlers.

(** The events the program subscribes to, and the handler of each. *)
Inductive Event :=
| Ready (client_user : str)
| ChannelCreate (channel : GuildChannel)
| ChannelDelete (channel : GuildChannel)
| ChannelUpdate (before after : GuildChannel)
| MessageCreate (message : Message).

Definition handle (cfg : Config) (w : World) (ev : Event) : M unit :=
  match ev with
  | Ready client_user => on_ready client_user
  | ChannelCreate channel => on_guild_channel_create cfg w channel
  | ChannelDelete channel => on_guild_channel_delete cfg w channel
  | ChannelUpdate before after => on_guild_channel_update cfg w before after
  | MessageCreate message => on_message cfg w message
  end.

(** The event loop: one event is handled to its end before the next;
    an exception that leaves a handler is reported by the client
    library and the loop goes on with the state as the handler left
    it. *)
Definition event_loop (cfg : Config) (evs : list (World * Event))
                      (st : State)
  : State :=
  fold_left (fun st x => snd (handle cfg (fst x) (snd x) st)) evs st.

(* ================================================================= *)
(** ** Start-up

    What the module does when it is loaded, before any event: it reads
    the save file into [TICKET_TO_PAGE_ID], or creates the file. *)

(** The carriage return, ["\r"]. *)
Definition CR : ascii := ascii_of_nat 13.

(** [for line in f] on a file opened for reading as text: a line ends
    at ["\n"], ["\r"] or ["\r\n"], each read as ["\n"], and the
    last line may lack its end.  [cur] is the line being read. *)
Fixpoint file_lines_from (cur s : str) : list str :=
  match s with
  | [] =>
      match cur with
      | [] => []
      | _ :: _ => [cur]
      end
  | c :: s' =>
      if char_eqb c LF then (cur ++ [LF]) :: file_lines_from [] s'
      else if char_eqb c CR then
        match s' with
        | c' :: s'' =>
            if char_eqb c' LF then (cur ++ [LF]) :: file_lines_from [] s''
            else (cur ++ [LF]) :: file_lines_from [] s'
        | [] => [cur ++ [LF]]
        end
      else file_lines_from (cur ++ [c]) s'
  end.

Definition file_lines (text : str) : list str := file_lines_from [] text.

(** One round of the loop over the lines:
    [ticket_number, page_id = line.strip().split(",")] and
    [TICKET_TO_PAGE_ID[int(ticket_number)] = page_id].  The messages of
    the two [ValueError]s of the unpacking are cut before the counts. *)
Definition load_line (store : gmap (option Z) str) (line : str)
  : result (gmap (option Z) str) :=
  fields <-r py_split (strip line) (lit ",") ;;
  match fields with
  | [ticket_number; page_id] =>
      n <-r py_int ticket_number ;;
      Ok (<[Some n := page_id]> store)
  | [] | [_] => Err (ValueError (lit "not enough values to unpack"))
  | _ :: _ :: _ :: _ => Err (ValueError (lit "too many values to unpack"))
  end.

Fixpoint load_lines (store : gmap (option Z) str) (count : nat)
                    (lines : list str)
  : result (gmap (option Z) str * nat) :=
  match lines with
  | [] => Ok (store, count)
  | line :: lines' =>
      store' <-r load_line store line ;;
      load_lines store' (S count) lines'
  end.

(** The state in which the event loop starts; [file] is the text of
    the file at [SAVE_FILE_PATH], [None] when there is no such file.
    An exception here ends the program before it connects. *)
Definition startup (file : option str) : result State :=
  match file with
  | Some text =>
      loaded <-r load_lines ∅ 0 (file_lines text) ;;
      Ok (mkState (fst loaded) text
                  [LogInfo (lit "Loaded " ++ py_str (Z.of_nat (snd loaded))
                            ++ lit " tickets from save file")]
                  [])
  | None => Ok (mkState ∅ [] [] [])
  end.

(** A record identifier that a line of the save file can carry: no
    comma, no line end, and no white space at its end. *)
Definition clean_id (id : str) : bool :=
  forallb (fun c => negb (char_eqb c "," || char_eqb c LF || char_eqb c CR))
          id
  && match rev id with
     | [] => true
     | x :: _ => negb (is_space x)
     end.

Definition clean_reply (w : World) : bool :=
  match reply w with
  | Replied id => clean_id id
  | Failed _ => true
  end.

(** The text of a file whose last line, if any, has its line feed. *)
Definition complete (text : str) : Prop :=
  match rev text with
  | [] => True
  | x :: _ => x = LF
  end.

(** The save file of [st] reads back as the store of [st]. *)
Definition saved (st : State) : Prop :=
  complete (save_file st) /\
  exists count,
    load_lines ∅ 0 (file_lines (save_file st))
    = Ok (TICKET_TO_PAGE_ID st, count).

(* ================================================================= *)
(** ** The store along a run *)

(** The entry that an event adds to the ticket store: a channel-create
    event of an open ticket whose record creation succeeded adds one,
    any other event none. *)
Definition created (cfg : Config) (x : World * Event)
  : option (option Z * str) :=
  match snd x with
  | ChannelCreate channel =>
      match get_channel_info cfg channel, reply (fst x) with
      | Ok (OPEN_TICKET, n), Replied page_id => Some (n, page_id)
      | _, _ => None
      end
  | _ => None
  end.

(** The identifier that the latest event of [evs] adding an entry for
    [k] gave it. *)
Fixpoint latest_created (cfg : Config) (evs : list (World * Event))
                        (k : option Z) : option str :=
  match evs with
  | [] => None
  | x :: evs' =>
      match latest_created cfg evs' k with
      | Some page_id => Some page_id
      | None =>
          match created cfg x with
          | Some (n, page_id) => if decide (n = k) then Some page_id else None
          | None => None
          end
      end
  end.

(* ================================================================= *)
(** ** Properties of a handler's run *)

(** [keeps f m]: running [m] leaves the component [f] of the state as
    it was, whether [m] returns or raises. *)
Definition keeps {A X} (f : State -> X) (m : M A) : Prop :=
  forall st, f (snd (m st)) = f st.

(** [grows k m]: running [m] only adds to the log and to the requests,
    and adds at most [k] requests. *)
Definition grows {A} (k : nat) (m : M A) : Prop :=
  forall st,
    (exists lines, log (snd (m st)) = log st ++ lines) /\
    (exists sent,
       requests (snd (m st)) = requests st ++ sent /\
       (List.length sent <= k)%nat).

(** [swallowed what m st]: if running [m] from [st] sent a request,
    which the workspace API failed with [what], then [m] returned
    and the last line it logged is an error line ending in [what]. *)
Definition swallowed (what : str) (m : M unit) (st : State) : Prop :=
  requests (snd (m st)) <> requests st ->
  fst (m st) = Ok tt /\
  exists lines text,
    log (snd (m st)) = log st ++ lines ++ [LogError (text ++ what)].

(* ================================================================= *)
(** ** The shape of a link *)

(** What [https?://[^\s]+] can match: a scheme and at least one
    character, none of them white space. *)
Definition url_segment (u : str) : Prop :=
  exists scheme tail,
    u = scheme ++ tail /\
    (scheme = lit "http://" \/ scheme = lit "https://") /\
    tail <> [] /\
    Forall (fun c => is_space c = false) tail.

(** A match of the link pattern carries a link as its second group. *)
Definition link_match (m : Match) : Prop := url_segment (group_text m 2).

(* ================================================================= *)
(** ** The link pattern read by hand

    What the matcher does on [URL_REGEX_COMPILED], written as plain
    recursion over the message; the properties of the link splitter are
    proved on these functions, which [re_match_URL_eq] shows to be the
    matcher on this pattern. *)

(** The longest run of characters that are not white space at the head
    of [s], and what follows it: [[^\s]*], greedy. *)
Fixpoint span_nonspace (s : str) : str * str :=
  match s with
  | [] => ([], [])
  | x :: s' =>
      if is_space x then ([], s)
      else let '(a, rest) := span_nonspace s' in (x :: a, rest)
  end.

(** [://[^\s]+] at the head of [s]: what it matches and what
    follows. *)
Definition url_tail (s : str) : option (str * str) :=
  match strip_prefix (lit "://") s with
  | None => None
  | Some s' =>
      match span_nonspace s' with
      | ([], _) => None
      | (y :: a, rest) => Some (lit "://" ++ y :: a, rest)
      end
  end.

(** The text [w] has been matched before the match [r]. *)
Definition after (w : str) (r : option (str * str)) : option (str * str) :=
  match r with
  | Some (a, rest) => Some (w ++ a, rest)
  | None => None
  end.

(** [https?://[^\s]+] at the head of [s]: the link and what follows.
    [s?] first tries to take the [s], and goes on without it when what
    follows the [s] does not match. *)
Definition url_at (s : str) : option (str * str) :=
  match strip_prefix (lit "http") s with
  | None => None
  | Some s1 =>
      after (lit "http")
        match strip_prefix (lit "s") s1 with
        | Some s2 =>
            match url_tail s2 with
            | Some r => after (lit "s") (Some r)
            | None => url_tail s1
            end
        | None => url_tail s1
        end
  end.

(** The whole pattern at the head of [s]: [(.*?)] gives up one more
    character, never a line feed, until a link follows.  The result is
    the first group, the link and what follows. *)
Fixpoint url_match_at (s : str) : option (str * str * str) :=
  match url_at s with
  | Some (u, rest) => Some ([], u, rest)
  | None =>
      match s with
      | [] => None
      | x :: s' =>
          if is_dot x then
            match url_match_at s' with
            | Some (g, u, rest) => Some (x :: g, u, rest)
            | None => None
            end
          else None
      end
  end.

(** A run of the matcher for a result of the pattern read by hand. *)
Definition with_caps (c : caps) (r : option (str * str)) : option run :=
  match r with
  | Some (a, rest) => Some (a, rest, c)
  | None => None
  end.

(** No white space in [a]. *)
Definition nonspace (a : str) : Prop :=
  Forall (fun c => is_space c = false) a.

(** A link ends where [rest] begins: at the end of the message or
    before white space. *)
Definition ends_link (rest : str) : Prop :=
  match rest with
  | [] => True
  | x :: _ => is_space x = true
  end.

(** No link that starts in [P], before the link [u] and the text [R],
    runs without white space to the end of [P]. *)
Definition no_straddle (P u R : str) : Prop :=
  forall P1 P2, P = P1 ++ P2 -> P2 <> [] -> nonspace P2 ->
                url_at (P2 ++ u ++ R) = None.

(** What is left of [s] after the matches [ms], each found in what
    the one before left. *)
Fixpoint rest_of (s : str) (ms : list Match) : str :=
  match ms with
  | [] => s
  | m :: ms' => rest_of (m_rest m) ms'
  end.

(** The result of [split_message_by_link] without the detour by
    [str.split]: the groups of the matches that are not empty, then
    what is left after the last match if it is not empty. *)
Definition segments_of (message : str) (ms : list Match) : list str :=
  match ms with
  | [] => [message]
  | _ :: _ =>
      let parts := fold_left add_match ms [] in
      if str_eqb (rest_of message ms) [] then parts
      else parts ++ [rest_of message ms]
  end.

(** Whole lines: no text, or text that ends in a line feed. *)
Definition whole_lines (d : str) : Prop :=
  d = [] \/ exists d', d = d' ++ [LF].

(** A character of a number in base ten, and a text made of them. *)
Definition number_char (c : ascii) : bool := is_digit c || char_eqb c "-".

Definition number_text (s : str) : Prop :=
  Forall (fun c => number_char c = true) s.

(** The first and the last character of [s], if any, are not white
    space. *)
Definition tight (s : str) : Prop :=
  match s with
  | [] => True
  | x :: _ => is_space x = false
  end /\
  match rev s with
  | [] => True
  | x :: _ => is_space x = false
  end.

(* ================================================================= *)
(** ** Sample configurations

    Patterns an operator may put in the environment, used where a
    property is tried on a concrete run. *)

Definition digits1 : regex := Plus (Class is_digit).

(** [ticket-(\d+)] *)
Definition ticket_re : regex := Seq (Lit (lit "ticket-")) (Group 1 digits1).

(** [closed-(\d+)] *)
Definition closed_re : regex := Seq (Lit (lit "closed-")) (Group 1 digits1).

(** [ticket-(\d+)-closed] *)
Definition ticket_closed_re : regex :=
  Seq (Lit (lit "ticket-")) (Seq (Group 1 digits1) (Lit (lit "-closed"))).

Definition sample_cfg : Config :=
  mkConfig (compile ticket_re) (compile closed_re)
           (lit "Welcome") 7 (lit "db").

(** A configuration whose closed-ticket names start like open ones. *)
Definition suffix_cfg : Config :=
  mkConfig (compile ticket_re) (compile ticket_closed_re)
           (lit "Welcome") 7 (lit "db").

Definition empty_state : State := mkState ∅ [] [] [].

(** The ticket bot's opening message in [ticket-42], mentioning nobody. *)
Definition sample_welcome : Message :=
  mkMessage (mkChannel (lit "ticket-42") (lit "url"))
            (mkUser 7 (lit "Tickets")) (lit "Welcome") [] [].

(** [ticket-] and then a group of any characters but line feeds,
    greedy: a group that need not be a number. *)
Definition ticket_any_re : regex :=
  Seq (Lit (lit "ticket-")) (Group 1 (Star true (Class is_dot))).

Definition loose_cfg : Config :=
  mkConfig (compile ticket_any_re) (compile closed_re)
           (lit "Welcome") 7 (lit "db").

(* ================================================================= *)
(** ** The classifier *)

Lemma get_channel_info_open_inv cfg channel ct n :
  get_channel_info cfg channel = Ok (ct, n) ->
  ct = OPEN_TICKET ->
  exists k, n = Some k.
Proof.
  unfold get_channel_info. intros H ->.
  destruct (cached_regex _ _) as [res|].
  - destruct (int_group _ res 1) as [k|e]; simpl in H; [|discriminate].
    injection H as <-. eauto.
  - destruct (cached_regex _ _) as [res|].
    + destruct (int_group _ res 1) as [k|e]; simpl in H; discriminate.
    + discriminate.
Qed.

Lemma int_group_text p m i g n :
  group p m i = Ok (Some g) -> py_int g = Ok n -> int_group p m i = Ok n.
Proof. intros Hg Hn. unfold int_group. rewrite Hg. exact Hn. Qed.

Lemma get_channel_info_open cfg channel res n :
  cached_regex (DISCORD_OPEN_TICKET_CHANNEL_NAME_REGEX cfg)
               (channel_name channel) = Some res ->
  int_group (DISCORD_OPEN_TICKET_CHANNEL_NAME_REGEX cfg) res 1 = Ok n ->
  get_channel_info cfg channel = Ok (OPEN_TICKET, Some n).
Proof.
  intros Hm Hn. unfold get_channel_info. rewrite Hm, Hn. reflexivity.
Qed.

(** C3: a channel name that the open-ticket pattern matches, with a
    first group whose text [int] reads as [n], is classified
    [(OPEN_TICKET, n)]. *)
Theorem get_channel_info_open_ticket cfg channel res g n :
  cached_regex (DISCORD_OPEN_TICKET_CHANNEL_NAME_REGEX cfg)
               (channel_name channel) = Some res ->
  group (DISCORD_OPEN_TICKET_CHANNEL_NAME_REGEX cfg) res 1 = Ok (Some g) ->
  py_int g = Ok n ->
  get_channel_info cfg channel = Ok (OPEN_TICKET, Some n).
Proof.
  intros Hm Hg Hn. eapply get_channel_info_open; [exact Hm|].
  eapply int_group_text; eassumption.
Qed.

Lemma get_channel_info_open_ticket_witness :
  get_channel_info sample_cfg (mkChannel (lit "ticket-42") (lit "url"))
  = Ok (OPEN_TICKET, Some 42).
Proof.
  eapply (get_channel_info_open_ticket sample_cfg
            (mkChannel (lit "ticket-42") (lit "url")) _ (lit "42") 42).
  - vm_compute. reflexivity.
  - vm_compute. reflexivity.
  - vm_compute. reflexivity.
Defined.

(** C3: a name that the open-ticket pattern matches is not always
    classified.  With the open-ticket pattern [ticket-] followed by a
    group of any characters, the name [ticket-abc] matches and its
    first group is [abc]: [int] raises [ValueError] and
    [get_channel_info] returns no classification. *)
Theorem get_channel_info_open_not_a_number :
  let channel := mkChannel (lit "ticket-abc") (lit "url") in
  (exists res,
     cached_regex (DISCORD_OPEN_TICKET_CHANNEL_NAME_REGEX loose_cfg)
                  (channel_name channel) = Some res /\
     group (DISCORD_OPEN_TICKET_CHANNEL_NAME_REGEX loose_cfg) res 1
     = Ok (Some (lit "abc"))) /\
  get_channel_info loose_cfg channel
  = Err (ValueError (lit "invalid literal for int() with base 10")).
Proof.
  cbv zeta. split.
  - eexists. split; vm_compute; reflexivity.
  - vm_compute. reflexivity.
Qed.

(* ================================================================= *)
(** ** What the handlers do to the state *)

Lemma keeps_ret {A X} (f : State -> X) (a : A) : keeps f (ret a).
Proof. intros st. reflexivity. Qed.

Lemma keeps_lift {A X} (f : State -> X) (r : result A) : keeps f (lift r).
Proof. intros st. reflexivity. Qed.

Lemma keeps_bind {A B X} (f : State -> X) (m : M A) (k : A -> M B) :
  keeps f m -> (forall a, keeps f (k a)) -> keeps f (bind m k).
Proof.
  intros Hm Hk st. unfold bind. specialize (Hm st).
  destruct (m st) as [[a|e] st']; simpl in *.
  - rewrite Hk. exact Hm.
  - exact Hm.
Qed.

Lemma keeps_try_except {A X} (f : State -> X) (m : M A) (h : exn -> M A) :
  keeps f m -> (forall e, keeps f (h e)) -> keeps f (try_except m h).
Proof.
  intros Hm Hh st. unfold try_except. specialize (Hm st).
  destruct (m st) as [[a|e] st']; simpl in *.
  - exact Hm.
  - rewrite Hh. exact Hm.
Qed.

Lemma keeps_page_of {X} (f : State -> X) k : keeps f (page_of k).
Proof. intros st. unfold page_of. destruct (_ !! _); reflexivity. Qed.

Lemma logger_info_store t : keeps TICKET_TO_PAGE_ID (logger_info t).
Proof. intros st. reflexivity. Qed.

Lemma logger_error_store t : keeps TICKET_TO_PAGE_ID (logger_error t).
Proof. intros st. reflexivity. Qed.

Lemma notion_store w req : keeps TICKET_TO_PAGE_ID (notion w req).
Proof. intros st. unfold notion. destruct (reply w); reflexivity. Qed.

Create HintDb keeps.
#[local] Hint Resolve keeps_ret keeps_lift keeps_page_of logger_info_store
  logger_error_store notion_store : keeps.

Ltac keeps_tac :=
  repeat first
    [ apply keeps_bind; [|intros ?]
    | apply keeps_try_except; [|intros ?]
    | solve [auto with keeps]
    | match goal with
      | |- keeps _ (match ?x with _ => _ end) => destruct x
      | |- keeps _ (if ?x then _ else _) => destruct x
      | |- keeps _ (let '(_, _) := ?x in _) => destruct x
      end ].

(** C7: on a message that mentions nobody, author resolution writes one
    error line and returns; no request is sent, and the ticket store
    and the save file are as before. *)
Theorem author_resolution_without_mention w message ticket_number st :
  message_mentions message = [] ->
  handle_author_resolution w message ticket_number st =
  (Ok tt,
   mkState (TICKET_TO_PAGE_ID st) (save_file st)
           (log st ++ [LogError (lit "No user mentioned in message "
                                 ++ message_content message
                                 ++ lit " for ticket "
                                 ++ py_str_opt ticket_number)])
           (requests st)).
Proof.
  intros Hm. unfold handle_author_resolution, get_mentioned_users.
  rewrite Hm. reflexivity.
Qed.

Lemma author_resolution_without_mention_witness :
  message_mentions sample_welcome = [] /\
  handle_author_resolution (mkWorld (lit "now") (Replied (lit "id")))
                           sample_welcome (Some 42) empty_state
  = (Ok tt,
     mkState ∅ [] [LogError (lit "No user mentioned in message Welcome for ticket 42")] []).
Proof.
  split; [reflexivity|].
  apply (author_resolution_without_mention
           (mkWorld (lit "now") (Replied (lit "id")))
           sample_welcome (Some 42) empty_state).
  reflexivity.
Defined.

Lemma handle_author_resolution_store w message ticket_number st :
  TICKET_TO_PAGE_ID (snd (handle_author_resolution w message ticket_number st))
  = TICKET_TO_PAGE_ID st.
Proof.
  revert st. change (keeps TICKET_TO_PAGE_ID
                       (handle_author_resolution w message ticket_number)).
  unfold handle_author_resolution. keeps_tac.
Qed.

Lemma handle_content_update_store w message ticket_number st :
  TICKET_TO_PAGE_ID (snd (handle_content_update w message ticket_number st))
  = TICKET_TO_PAGE_ID st.
Proof.
  revert st. change (keeps TICKET_TO_PAGE_ID
                       (handle_content_update w message ticket_number)).
  unfold handle_content_update. keeps_tac.
Qed.

Lemma close_page_store w ticket_number st :
  TICKET_TO_PAGE_ID (snd (close_page w ticket_number st))
  = TICKET_TO_PAGE_ID st.
Proof.
  revert st. change (keeps TICKET_TO_PAGE_ID (close_page w ticket_number)).
  unfold close_page. keeps_tac.
Qed.

Lemma on_guild_channel_delete_store cfg w channel st :
  TICKET_TO_PAGE_ID (snd (on_guild_channel_delete cfg w channel st))
  = TICKET_TO_PAGE_ID st.
Proof.
  unfold on_guild_channel_delete, bind, lift, ret.
  destruct (get_channel_info cfg channel) as [[ct n]|e]; simpl; [|done].
  destruct (negb _); simpl; [done|]. apply close_page_store.
Qed.

Lemma on_guild_channel_update_store cfg w before after st :
  TICKET_TO_PAGE_ID (snd (on_guild_channel_update cfg w before after st))
  = TICKET_TO_PAGE_ID st.
Proof.
  unfold on_guild_channel_update, bind, lift, ret.
  destruct (get_channel_info cfg before) as [[ct n]|e]; simpl; [|done].
  destruct (negb _); simpl; [done|].
  destruct (get_channel_info cfg after) as [[ct' n']|e]; simpl; [|done].
  destruct (negb _); simpl; [done|]. apply close_page_store.
Qed.

Lemma on_message_store cfg w message st :
  TICKET_TO_PAGE_ID (snd (on_message cfg w message st))
  = TICKET_TO_PAGE_ID st.
Proof.
  unfold on_message, bind, lift, ret.
  destruct (get_channel_info cfg _) as [[ct n]|e]; simpl; [|done].
  destruct (ChannelType_eqb ct UNKNOWN); simpl; [done|].
  destruct (_ && _ && _); [apply handle_author_resolution_store|].
  destruct (_ && _); [apply handle_content_update_store|done].
Qed.

(** C8: channel deletion, channel update and messages, author
    resolution and content append among them, leave the ticket store as
    it was, whatever the event, the world's answer and the outcome. *)
Theorem only_channel_create_writes_store cfg w st :
  (forall channel,
     TICKET_TO_PAGE_ID (snd (on_guild_channel_delete cfg w channel st))
     = TICKET_TO_PAGE_ID st) /\
  (forall before after,
     TICKET_TO_PAGE_ID (snd (on_guild_channel_update cfg w before after st))
     = TICKET_TO_PAGE_ID st) /\
  (forall message,
     TICKET_TO_PAGE_ID (snd (on_message cfg w message st))
     = TICKET_TO_PAGE_ID st) /\
  (forall message ticket_number,
     TICKET_TO_PAGE_ID
       (snd (handle_author_resolution w message ticket_number st))
     = TICKET_TO_PAGE_ID st) /\
  (forall message ticket_number,
     TICKET_TO_PAGE_ID
       (snd (handle_content_update w message ticket_number st))
     = TICKET_TO_PAGE_ID st) /\
  (forall ev,
     match ev with
     | ChannelCreate _ => True
     | _ => TICKET_TO_PAGE_ID (snd (handle cfg w ev st)) = TICKET_TO_PAGE_ID st
     end).
Proof.
  repeat split; intros.
  - apply on_guild_channel_delete_store.
  - apply on_guild_channel_update_store.
  - apply on_message_store.
  - apply handle_author_resolution_store.
  - apply handle_content_update_store.
  - destruct ev; cbn [handle].
    + reflexivity.
    + exact I.
    + apply on_guild_channel_delete_store.
    + apply on_guild_channel_update_store.
    + apply on_message_store.
Qed.

(* ================================================================= *)
(** ** Messages in closed tickets *)

(** C9, as the specification words it, fails: the open-ticket pattern
    is tried first, so a name that both patterns match is an open
    ticket.  Under [suffix_cfg] a user's message in [ticket-7-closed]
    is appended to the page of ticket 7. *)
Lemma on_message_closed_name_still_open :
  let message :=
    mkMessage (mkChannel (lit "ticket-7-closed") (lit "url"))
              (mkUser 1 (lit "ann")) (lit "hi") [] [] in
  let st :=
    mkState {[ Some 7 := lit "page7" ]} [] [] [] in
  cached_regex (DISCORD_CLOSED_TICKET_CHANNEL_NAME_REGEX suffix_cfg)
               (channel_name (message_channel message)) <> None /\
  requests (snd (on_message suffix_cfg
                            (mkWorld (lit "now") (Replied (lit "ok")))
                            message st))
  = [BlocksChildrenAppend (lit "page7")
       [Paragraph [mkRichText (lit "ann: ") None true;
                   mkRichText (lit "hi") None false]]].
Proof.
  split.
  - vm_compute. discriminate.
  - vm_compute. reflexivity.
Qed.

(** C9, amended: a message in a channel that [get_channel_info]
    classifies as a closed ticket changes nothing: the handler returns
    with the state, the log and the requests sent exactly as before. *)
Theorem on_message_closed_ticket cfg w message n st :
  get_channel_info cfg (message_channel message) = Ok (CLOSED_TICKET, n) ->
  on_message cfg w message st = (Ok tt, st).
Proof.
  intros H. unfold on_message, bind, lift. rewrite H. reflexivity.
Qed.

Lemma on_message_closed_ticket_witness :
  let message :=
    mkMessage (mkChannel (lit "closed-7") (lit "url"))
              (mkUser 1 (lit "ann")) (lit "hi") [] [] in
  get_channel_info sample_cfg (message_channel message)
  = Ok (CLOSED_TICKET, Some 7) /\
  on_message sample_cfg (mkWorld (lit "now") (Replied (lit "ok")))
             message empty_state
  = (Ok tt, empty_state).
Proof.
  cbv zeta. split; [vm_compute; reflexivity|].
  apply (on_message_closed_ticket sample_cfg _ _ (Some 7)).
  vm_compute. reflexivity.
Defined.

(* ================================================================= *)
(** ** Channel creation *)

Lemma on_guild_channel_create_open cfg w channel n st :
  get_channel_info cfg channel = Ok (OPEN_TICKET, n) ->
  on_guild_channel_create cfg w channel st =
  let req := PagesCreate (NOTION_PARENT_DATABASE_ID cfg)
                         (lit "Ticket #" ++ py_str_opt n) StatusOpen
                         (now w) (channel_jump_url channel) in
  match reply w with
  | Replied page_id =>
      (Ok tt,
       mkState (<[n := page_id]> (TICKET_TO_PAGE_ID st))
               (save_file st ++ py_str_opt n ++ lit "," ++ page_id ++ [LF])
               (log st ++ [LogInfo (lit "Created Notion page for ticket "
                                    ++ py_str_opt n ++ lit ": " ++ page_id)])
               (requests st ++ [req]))
  | Failed what =>
      (Ok tt,
       mkState (TICKET_TO_PAGE_ID st) (save_file st)
               (log st ++ [LogError (lit "Error creating Notion page for ticket "
                                     ++ py_str_opt n ++ lit ": " ++ what)])
               (requests st ++ [req]))
  end.
Proof.
  intros H. unfold on_guild_channel_create, bind, lift. rewrite H.
  cbn [ChannelType_eqb negb]. unfold try_except, bind, notion.
  destruct (reply w); reflexivity.
Qed.

Lemma on_guild_channel_create_other cfg w channel st :
  (forall n, get_channel_info cfg channel <> Ok (OPEN_TICKET, n)) ->
  on_guild_channel_create cfg w channel st
  = (match get_channel_info cfg channel with
     | Ok _ => Ok tt
     | Err e => Err e
     end, st).
Proof.
  intros H. unfold on_guild_channel_create, bind, lift.
  destruct (get_channel_info cfg channel) as [[ct n]|e]; [|reflexivity].
  destruct ct; try reflexivity. exfalso. eapply H. reflexivity.
Qed.



(** What one event does to the ticket store. *)
Lemma handle_store cfg w ev st :
  TICKET_TO_PAGE_ID (snd (handle cfg w ev st)) =
  match created cfg (w, ev) with
  | Some (n, page_id) => <[n := page_id]> (TICKET_TO_PAGE_ID st)
  | None => TICKET_TO_PAGE_ID st
  end.
Proof.
  destruct ev as [user|channel|channel|before after|message];
    unfold created; cbn [snd fst handle].
  - reflexivity.
  - destruct (get_channel_info cfg channel) as [[ct n]|e] eqn:Hi.
    + destruct ct.
      * rewrite (on_guild_channel_create_open _ _ _ _ _ Hi). cbv zeta.
        destruct (reply w); reflexivity.
      * rewrite on_guild_channel_create_other by (rewrite Hi; congruence).
        reflexivity.
      * rewrite on_guild_channel_create_other by (rewrite Hi; congruence).
        reflexivity.
    + rewrite on_guild_channel_create_other by (rewrite Hi; congruence).
      reflexivity.
  - apply on_guild_channel_delete_store.
  - apply on_guild_channel_update_store.
  - apply on_message_store.
Qed.

(** C1, as the specification words it, fails: a second creation of
    [ticket-42] that the workspace API answers with a new record
    replaces the identifier stored by the first. *)
Lemma second_create_overwrites :
  let create_42 := ChannelCreate (mkChannel (lit "ticket-42") (lit "url")) in
  let st1 :=
    event_loop sample_cfg
      [(mkWorld (lit "t1") (Replied (lit "id1")), create_42)] empty_state in
  let st2 :=
    event_loop sample_cfg
      [(mkWorld (lit "t2") (Replied (lit "id2")), create_42)] st1 in
  TICKET_TO_PAGE_ID st1 !! Some 42 = Some (lit "id1") /\
  TICKET_TO_PAGE_ID st2 !! Some 42 = Some (lit "id2") /\
  lit "id1" <> lit "id2".
Proof.
  cbv zeta. split; [vm_compute; reflexivity|].
  split; [vm_compute; reflexivity|]. vm_compute. discriminate.
Qed.

(** C1, amended: after any sequence of events the identifier stored for
    a ticket number is the one returned by the latest channel-create
    event for that number whose record creation succeeded, and the one
    stored at the start when there is none.  So a later creation for
    the same number replaces the identifier when it succeeds and leaves
    it alone when it fails, and no other event touches it. *)
Theorem store_holds_latest_created cfg evs st k :
  TICKET_TO_PAGE_ID (event_loop cfg evs st) !! k =
  match latest_created cfg evs k with
  | Some page_id => Some page_id
  | None => TICKET_TO_PAGE_ID st !! k
  end.
Proof.
  revert st. induction evs as [|[w ev] evs IH]; intros st.
  - reflexivity.
  - unfold event_loop in *. cbn [fold_left fst snd latest_created].
    rewrite IH. destruct (latest_created cfg evs k) as [page_id|];
      [reflexivity|].
    rewrite handle_store.
    destruct (created cfg (w, ev)) as [[n page_id]|]; [|reflexivity].
    destruct (decide (n = k)) as [->|Hne].
    + apply lookup_insert_eq.
    + apply lookup_insert_ne. exact Hne.
Qed.

(* ================================================================= *)
(** ** Failures of the workspace API *)

Lemma app_neq_self {A} (l : list A) (x : A) : l ++ [x] <> l.
Proof.
  intros H. apply (f_equal (@List.length A)) in H.
  rewrite List.length_app in H. simpl in H. lia.
Qed.

Lemma swallows_intro (what : str) (m : M unit) (st : State) lines text :
  fst (m st) = Ok tt ->
  log (snd (m st)) = log st ++ lines ++ [LogError (text ++ what)] ->
  swallowed what m st.
Proof. intros H1 H2 _. split; [exact H1|]. eauto. Qed.

Lemma swallows_no_request (what : str) (m : M unit) (st : State) :
  requests (snd (m st)) = requests st -> swallowed what m st.
Proof. intros H1 H2. contradiction. Qed.

Lemma close_page_failed w ticket_number what st :
  reply w = Failed what ->
  close_page w ticket_number st =
  match TICKET_TO_PAGE_ID st !! ticket_number with
  | Some page_id =>
      (Ok tt,
       mkState (TICKET_TO_PAGE_ID st) (save_file st)
               (log st ++ [LogError (lit "Error updating Notion page for ticket "
                                     ++ py_str_opt ticket_number ++ lit ": "
                                     ++ what)])
               (requests st
                ++ [PagesUpdateStatus page_id StatusClosed (now w)]))
  | None =>
      (Ok tt,
       mkState (TICKET_TO_PAGE_ID st) (save_file st)
               (log st ++ [LogError (lit "Error updating Notion page for ticket "
                                     ++ py_str_opt ticket_number ++ lit ": "
                                     ++ py_str_opt ticket_number)])
               (requests st))
  end.
Proof.
  intros Hr. unfold close_page, try_except, bind, page_of, notion.
  rewrite Hr. destruct (TICKET_TO_PAGE_ID st !! ticket_number); reflexivity.
Qed.

(** Closes a [swallowed] goal whose run has been computed. *)
Ltac swallowed_done :=
  cbn [fst snd log requests]; intros Hq;
  first
    [ contradiction
    | split; [reflexivity|]; exists []; eexists;
      rewrite app_nil_l, ?app_assoc; reflexivity ].

Lemma close_page_swallows w ticket_number what st :
  reply w = Failed what ->
  swallowed what (close_page w ticket_number) st.
Proof.
  intros Hr. unfold swallowed.
  rewrite (close_page_failed _ _ _ _ Hr).
  destruct (TICKET_TO_PAGE_ID st !! ticket_number) as [page_id|];
    swallowed_done.
Qed.

Lemma handle_content_update_swallows w message ticket_number what st :
  reply w = Failed what ->
  swallowed what (handle_content_update w message ticket_number) st.
Proof.
  intros Hr. unfold swallowed, handle_content_update, try_except, bind,
    page_of, lift, notion.
  rewrite Hr.
  destruct (TICKET_TO_PAGE_ID st !! ticket_number) as [page_id|];
    [|swallowed_done].
  destruct (split_message_by_link (message_content message)) as [parts|e];
    swallowed_done.
Qed.

Lemma handle_author_resolution_swallows w message ticket_number what st :
  reply w = Failed what ->
  swallowed what (handle_author_resolution w message ticket_number) st.
Proof.
  intros Hr. unfold swallowed, handle_author_resolution.
  destruct (get_mentioned_users message) as [|username rest];
    [swallowed_done|].
  unfold try_except, bind, page_of, notion, logger_info.
  destruct (TICKET_TO_PAGE_ID st !! ticket_number) as [page_id|] eqn:Hp;
    [|swallowed_done].
  cbn [TICKET_TO_PAGE_ID]. rewrite Hp, Hr. unfold logger_error.
  cbn [fst snd log requests exn_str]. intros _. split; [reflexivity|].
  eexists [_], _. rewrite <- (app_assoc (log st)). reflexivity.
Qed.

Lemma on_guild_channel_create_swallows cfg w channel what st :
  reply w = Failed what ->
  swallowed what (on_guild_channel_create cfg w channel) st.
Proof.
  intros Hr. unfold swallowed.
  destruct (get_channel_info cfg channel) as [[[| |] n]|e] eqn:Hi.
  - rewrite (on_guild_channel_create_open _ _ _ _ _ Hi). cbv zeta.
    rewrite Hr. swallowed_done.
  - rewrite on_guild_channel_create_other by (rewrite Hi; congruence).
    swallowed_done.
  - rewrite on_guild_channel_create_other by (rewrite Hi; congruence).
    swallowed_done.
  - rewrite on_guild_channel_create_other by (rewrite Hi; congruence).
    swallowed_done.
Qed.

(** C4: when the workspace API fails the request that an event handler
    sends, the handler returns normally and the last line it logged is
    an error line carrying the failure; the failure does not leave the
    handler. *)
Theorem remote_failure_swallowed cfg w ev what st :
  reply w = Failed what ->
  requests (snd (handle cfg w ev st)) <> requests st ->
  fst (handle cfg w ev st) = Ok tt /\
  exists lines text,
    log (snd (handle cfg w ev st))
    = log st ++ lines ++ [LogError (text ++ what)].
Proof.
  intros Hr. change (swallowed what (handle cfg w ev) st).
  destruct ev as [user|channel|channel|before after|message]; cbn [handle].
  - unfold swallowed, on_ready, logger_info. swallowed_done.
  - apply on_guild_channel_create_swallows. exact Hr.
  - unfold on_guild_channel_delete, bind, lift.
    destruct (get_channel_info cfg channel) as [[ct n]|e];
      [|unfold swallowed; swallowed_done].
    destruct (negb _); [unfold swallowed, ret; swallowed_done|].
    apply close_page_swallows. exact Hr.
  - unfold on_guild_channel_update, bind, lift.
    destruct (get_channel_info cfg before) as [[ct n]|e];
      [|unfold swallowed; swallowed_done].
    destruct (negb _); [unfold swallowed, ret; swallowed_done|].
    destruct (get_channel_info cfg after) as [[ct' n']|e];
      [|unfold swallowed; swallowed_done].
    destruct (negb _); [unfold swallowed, ret; swallowed_done|].
    apply close_page_swallows. exact Hr.
  - unfold on_message, bind, lift.
    destruct (get_channel_info cfg _) as [[ct n]|e];
      [|unfold swallowed; swallowed_done].
    destruct (ChannelType_eqb ct UNKNOWN);
      [unfold swallowed, ret; swallowed_done|].
    destruct (_ && _ && _);
      [apply handle_author_resolution_swallows; exact Hr|].
    destruct (_ && _);
      [apply handle_content_update_swallows; exact Hr|].
    unfold swallowed, ret; swallowed_done.
Qed.

Lemma remote_failure_swallowed_witness :
  let w := mkWorld (lit "now") (Failed (lit "boom")) in
  let ev := ChannelDelete (mkChannel (lit "ticket-42") (lit "url")) in
  let st := mkState {[ Some 42 := lit "page42" ]} [] [] [] in
  fst (handle sample_cfg w ev st) = Ok tt /\
  exists lines text,
    log (snd (handle sample_cfg w ev st))
    = log st ++ lines ++ [LogError (text ++ lit "boom")].
Proof.
  cbv zeta.
  apply (remote_failure_swallowed sample_cfg
           (mkWorld (lit "now") (Failed (lit "boom")))
           (ChannelDelete (mkChannel (lit "ticket-42") (lit "url")))
           (lit "boom")
           (mkState {[ Some 42 := lit "page42" ]} [] [] [])).
  - reflexivity.
  - vm_compute. discriminate.
Defined.

(* ================================================================= *)
(** ** The matcher on the link pattern *)

Lemma char_eqb_eq a b : char_eqb a b = true -> a = b.
Proof. unfold char_eqb. intros H. apply Ascii.eqb_eq. exact H. Qed.

Lemma str_eqb_nil_false (a : str) : a <> [] -> str_eqb a [] = false.
Proof. destruct a; [congruence|reflexivity]. Qed.

Lemma in_runs_Seq r1 r2 s c x :
  In x (runs (Seq r1 r2) s c) ->
  exists a1 s1 c1 a2 s2 c2,
    In (a1, s1, c1) (runs r1 s c) /\
    In (a2, s2, c2) (runs r2 s1 c1) /\
    x = (a1 ++ a2, s2, c2).
Proof.
  cbn [runs]. rewrite in_flat_map. intros [[[a1 s1] c1] [H1 H2]].
  apply in_map_iff in H2 as [[[a2 s2] c2] [<- H2]].
  exists a1, s1, c1, a2, s2, c2. auto.
Qed.

Lemma in_runs_Group i r s c x :
  In x (runs (Group i r) s c) ->
  exists a s' c', In (a, s', c') (runs r s c) /\ x = (a, s', (i, a) :: c').
Proof.
  cbn [runs]. intros H.
  apply in_map_iff in H as [[[a s'] c'] [<- H]]. eauto.
Qed.

Lemma in_runs_Class p s c x :
  In x (runs (Class p) s c) ->
  exists y s', s = y :: s' /\ p y = true /\ x = ([y], s', c).
Proof.
  cbn [runs]. destruct s as [|y s']; [intros []|].
  destruct (p y) eqn:Hp; [|intros []].
  intros [<-|[]]. eauto.
Qed.

Lemma in_runs_Lit w s c x :
  In x (runs (Lit w) s c) -> exists s', x = (w, s', c).
Proof.
  revert s x. induction w as [|y w IH]; intros s x.
  - cbn. intros [<-|[]]. eauto.
  - cbn [Lit]. intros H.
    apply in_runs_Seq in H
      as (a1 & s1 & c1 & a2 & s2 & c2 & H1 & H2 & ->).
    apply in_runs_Class in H1 as (z & s' & -> & Hz & [= -> -> ->]).
    apply char_eqb_eq in Hz as <-.
    apply IH in H2 as (s3 & [= -> -> ->]). eauto.
Qed.

Lemma in_star_loop_Class p greedy n s c x :
  In x (star_loop (runs (Class p)) greedy n s c) ->
  exists a s', x = (a, s', c) /\ Forall (fun y => p y = true) a.
Proof.
  revert s x. induction n as [|n IH]; intros s x; cbn [star_loop].
  - destruct greedy; cbn; intros [<-|[]]; eauto.
  - intros H.
    assert (x = ([], s, c) \/
            In x (flat_map
                    (fun x0 : run =>
                       let '(a, s1, c1) := x0 in
                       match a with
                       | [] => []
                       | _ :: _ =>
                           map (extend a)
                               (star_loop (runs (Class p)) greedy n s1 c1)
                       end) (runs (Class p) s c))) as [->|Hin].
    { destruct greedy.
      - apply in_app_iff in H as [H|[<-|[]]]; auto.
      - destruct H as [<-|H]; auto. }
    + eauto.
    + apply in_flat_map in Hin as [[[a1 s1] c1] [H1 H2]].
      apply in_runs_Class in H1 as (y & s' & -> & Hy & [= -> -> ->]).
      apply in_map_iff in H2 as [[[a2 s2] c2] [<- H2]].
      apply IH in H2 as (a & s3 & [= -> -> ->] & Ha).
      cbn. eauto.
Qed.

Lemma in_runs_Plus_Class p s c x :
  In x (runs (Plus (Class p)) s c) ->
  exists a s', x = (a, s', c) /\ a <> [] /\ Forall (fun y => p y = true) a.
Proof.
  unfold Plus. intros H.
  apply in_runs_Seq in H as (a1 & s1 & c1 & a2 & s2 & c2 & H1 & H2 & ->).
  apply in_runs_Class in H1 as (y & s' & -> & Hy & [= -> -> ->]).
  cbn [runs] in H2.
  apply in_star_loop_Class in H2 as (a & s3 & [= -> -> ->] & Ha).
  exists (y :: a), s3. split; [reflexivity|]. split; [discriminate|].
  constructor; assumption.
Qed.

(** Every way the link pattern matches: the first group, then a link
    as the second group. *)
Lemma in_runs_URL s c x :
  In x (runs URL_REGEX_COMPILED s c) ->
  exists g u s' c',
    x = (g ++ u, s', (2%nat, u) :: c') /\ url_segment u.
Proof.
  unfold URL_REGEX_COMPILED. intros H.
  apply in_runs_Seq in H as (g & s1 & c1 & u & s2 & c2 & _ & H2 & ->).
  apply in_runs_Group in H2 as (u' & s3 & c3 & H2 & [= -> -> ->]).
  exists g, u', s3, c3. split; [reflexivity|].
  apply in_runs_Seq in H2 as (a1 & t1 & d1 & a2 & t2 & d2 & H1 & H2 & [= -> -> ->]).
  apply in_runs_Lit in H1 as (? & [= -> -> ->]).
  apply in_runs_Seq in H2 as (a3 & t3 & d3 & a4 & t4 & d4 & H3 & H4 & [= -> -> ->]).
  apply in_runs_Seq in H4 as (a5 & t5 & d5 & a6 & t6 & d6 & H5 & H6 & [= -> -> ->]).
  apply in_runs_Lit in H5 as (? & [= -> -> ->]).
  apply in_runs_Plus_Class in H6 as (tail & ? & [= -> -> ->] & Hne & Hall).
  assert (Forall (fun c => is_space c = false) tail) as Hall'.
  { eapply List.Forall_impl; [|exact Hall]. cbn. intros y Hy.
    apply negb_true_iff. exact Hy. }
  unfold Opt in H3. cbn [runs] in H3. apply in_app_iff in H3 as [H3|H3].
  - apply (in_runs_Lit (lit "s")) in H3 as (? & [= -> -> ->]).
    exists (lit "https://"), tail. auto.
  - destruct H3 as [[= <- <- <-]|[]].
    exists (lit "http://"), tail. auto.
Qed.

Lemma url_segment_nonempty u : url_segment u -> u <> [].
Proof.
  intros (scheme & tail & -> & [-> | ->] & _); discriminate.
Qed.

Lemma re_match_URL s m :
  re_match URL_REGEX_COMPILED s = Some m -> link_match m.
Proof.
  unfold re_match.
  destruct (runs URL_REGEX_COMPILED s []) as [|x l] eqn:Hr; [discriminate|].
  intros [= <-].
  destruct (in_runs_URL s [] x) as (g & u & s' & c' & -> & Hu).
  { rewrite Hr. left. reflexivity. }
  unfold link_match, group_text. cbn. exact Hu.
Qed.

Lemma re_search_URL s m :
  re_search URL_REGEX_COMPILED s = Some m -> link_match m.
Proof.
  induction s as [|x s IH]; cbn [re_search].
  - destruct (re_match _ []) eqn:Hm; [|discriminate].
    intros [= <-]. eapply re_match_URL. exact Hm.
  - destruct (re_match _ (x :: s)) eqn:Hm; [|exact IH].
    intros [= <-]. eapply re_match_URL. exact Hm.
Qed.

Lemma findall_from_URL n s :
  Forall link_match (findall_from n URL_REGEX_COMPILED s).
Proof.
  revert s. induction n as [|n IH]; intros s; cbn [findall_from].
  - constructor.
  - destruct (re_search _ s) as [m|] eqn:Hs; [|constructor].
    constructor; [eapply re_search_URL; exact Hs|].
    destruct (m_text m); [destruct (m_rest m)|]; auto.
Qed.

Lemma last_item_app {A} (l : list A) (x : A) : last_item (l ++ [x]) = Ok x.
Proof.
  induction l as [|y l IH]; [reflexivity|].
  cbn [app last_item]. destruct (l ++ [x]) eqn:E; [|exact IH].
  destruct l; discriminate.
Qed.

Lemma last_item_nonempty {A} (l : list A) :
  l <> [] -> exists x, last_item l = Ok x.
Proof.
  intros Hl. destruct (exists_last Hl) as (l' & x & ->).
  exists x. apply last_item_app.
Qed.

(** After a round for a match with a link, the link is the last part. *)
Lemma add_match_link parts m :
  link_match m ->
  exists parts', add_match parts m = parts' ++ [group_text m 2].
Proof.
  intros Hm. unfold add_match.
  rewrite (str_eqb_nil_false (group_text m 2))
    by (apply url_segment_nonempty; exact Hm).
  eauto.
Qed.

Lemma fold_add_match_link matches parts :
  matches <> [] ->
  Forall link_match matches ->
  exists parts' u,
    fold_left add_match matches parts = parts' ++ [u] /\ url_segment u.
Proof.
  intros Hne Hall. destruct (exists_last Hne) as (ms & m & ->).
  apply Forall_app in Hall as [_ Hm]. inversion Hm as [|? ? Hm' _]; subst.
  rewrite fold_left_app. cbn [fold_left].
  destruct (add_match_link (fold_left add_match ms parts) m Hm')
    as (parts' & ->).
  exists parts', (group_text m 2). split; [reflexivity|exact Hm'].
Qed.

Lemma split_from_nonempty n sep piece s : split_from n sep piece s <> [].
Proof.
  destruct n; cbn [split_from]; [discriminate|].
  destruct (strip_prefix sep s); [discriminate|].
  destruct s; [discriminate|].
  revert piece a s. induction n as [|n IH]; intros piece a s;
    cbn [split_from]; [discriminate|].
  destruct (strip_prefix sep s); [discriminate|].
  destruct s; [discriminate|]. apply IH.
Qed.

(** C10: [split_message_by_link] returns on every message, and what it
    returns is not empty: each match of the pattern has a link, a
    scheme followed by at least one character, as its second group, so
    [parts[-1]] exists, is not empty and can be split by. *)
Theorem split_message_by_link_total message :
  Forall (fun m => url_segment (group_text m 2))
         (findall URL_REGEX_COMPILED message) /\
  exists parts, split_message_by_link message = Ok parts /\ parts <> [].
Proof.
  split; [apply findall_from_URL|].
  unfold split_message_by_link.
  destruct (findall URL_REGEX_COMPILED message) as [|m ms] eqn:Hf.
  - exists [message]. split; [reflexivity|discriminate].
  - destruct (fold_add_match_link (m :: ms) []) as (parts' & u & -> & Hu).
    + discriminate.
    + rewrite <- Hf. apply findall_from_URL.
    + rewrite last_item_app. cbn [bind_result].
      unfold py_split. pose proof (url_segment_nonempty u Hu) as Hne.
      destruct u as [|y u]; [congruence|]. cbn [bind_result].
      destruct (last_item_nonempty
                  (split_from (S (List.length message)) (y :: u) [] message))
        as (trailing & ->); [apply split_from_nonempty|].
      cbn [bind_result]. eexists. split; [reflexivity|].
      destruct (str_eqb trailing []).
      * intros H. destruct parts'; discriminate.
      * intros H. apply app_eq_nil in H as [_ H]. discriminate.
Qed.

(* ================================================================= *)
(** ** The matcher and the pattern read by hand agree *)

Lemma strip_prefix_app w s s' : strip_prefix w s = Some s' -> s = w ++ s'.
Proof.
  revert s. induction w as [|y w IH]; intros s; cbn [strip_prefix].
  - intros [= ->]. reflexivity.
  - destruct s as [|x s]; [discriminate|].
    destruct (char_eqb y x) eqn:E; [|discriminate].
    apply char_eqb_eq in E as ->. intros H. cbn. f_equal. apply IH, H.
Qed.

Lemma char_eqb_refl a : char_eqb a a = true.
Proof. unfold char_eqb. apply Ascii.eqb_refl. Qed.

Lemma strip_prefix_of_app w s : strip_prefix w (w ++ s) = Some s.
Proof.
  induction w as [|y w IH]; [reflexivity|].
  cbn. rewrite char_eqb_refl. exact IH.
Qed.

Lemma runs_Lit_eq w s c :
  runs (Lit w) s c =
  match strip_prefix w s with
  | Some s' => [(w, s', c)]
  | None => []
  end.
Proof.
  revert s. induction w as [|y w IH]; intros s; [reflexivity|].
  cbn [Lit runs strip_prefix]. destruct s as [|x s]; [reflexivity|].
  destruct (char_eqb y x) eqn:E; [|reflexivity].
  apply char_eqb_eq in E as ->. cbn [flat_map]. rewrite IH, app_nil_r.
  destruct (strip_prefix w s); reflexivity.
Qed.

Lemma runs_Seq_eq r1 r2 s c :
  runs (Seq r1 r2) s c =
  flat_map (fun x : run =>
              let '(a, s1, c1) := x in map (extend a) (runs r2 s1 c1))
           (runs r1 s c).
Proof. reflexivity. Qed.

Lemma runs_Opt_eq r s c : runs (Opt r) s c = runs r s c ++ [([], s, c)].
Proof. reflexivity. Qed.

Lemma runs_Group_eq i r s c :
  runs (Group i r) s c =
  map (fun x : run => let '(a, s1, c1) := x in (a, s1, (i, a) :: c1))
      (runs r s c).
Proof. reflexivity. Qed.

Lemma star_loop_eq body greedy n s c :
  star_loop body greedy n s c =
  let again :=
    match n with
    | O => []
    | S n' =>
        flat_map (fun x : run =>
                    let '(a, s1, c1) := x in
                    match a with
                    | [] => []
                    | _ :: _ => map (extend a) (star_loop body greedy n' s1 c1)
                    end)
                 (body s c)
    end in
  if greedy then again ++ [([], s, c)] else ([], s, c) :: again.
Proof. destruct n; reflexivity. Qed.

Lemma runs_Class_eq p s c :
  runs (Class p) s c =
  match s with
  | x :: s' => if p x then [([x], s', c)] else []
  | [] => []
  end.
Proof. reflexivity. Qed.

(** The first run of a greedy loop over one character class takes the
    longest run of characters of the class. *)
Lemma star_loop_nonspace_head n s c :
  (List.length s <= n)%nat ->
  exists l,
    star_loop (runs (Class (fun y => negb (is_space y)))) true n s c
    = (fst (span_nonspace s), snd (span_nonspace s), c) :: l.
Proof.
  set (body := runs (Class (fun y => negb (is_space y)))).
  revert s. induction n as [|n IH]; intros s Hn; rewrite star_loop_eq.
  - destruct s; [|cbn in Hn; lia]. cbn. eauto.
  - cbv zeta. destruct s as [|x s].
    + cbn. eauto.
    + unfold body at 2. rewrite runs_Class_eq.
      cbn [span_nonspace]. destruct (is_space x); cbn [negb].
      * cbn. eauto.
      * cbn [flat_map]. rewrite app_nil_r.
        destruct (IH s) as (l & ->); [cbn in Hn; lia|].
        destruct (span_nonspace s) as [a rest]. cbn. eauto.
Qed.

Lemma runs_Star_eq greedy r s c :
  runs (Star greedy r) s c = star_loop (runs r) greedy (List.length s) s c.
Proof. reflexivity. Qed.

Lemma head_runs_Plus_nonspace s c :
  head (runs (Plus (Class (fun y => negb (is_space y)))) s c) =
  match span_nonspace s with
  | ([], _) => None
  | (y :: a, rest) => Some (y :: a, rest, c)
  end.
Proof.
  unfold Plus. rewrite runs_Seq_eq, runs_Class_eq.
  destruct s as [|x s]; [reflexivity|]. cbn [span_nonspace].
  destruct (is_space x); [reflexivity|]. cbn [negb flat_map].
  rewrite app_nil_r, runs_Star_eq.
  destruct (star_loop_nonspace_head (List.length s) s c) as (l & ->);
    [lia|].
  destruct (span_nonspace s) as [a rest]. reflexivity.
Qed.

Lemma head_runs_Seq_Lit w r s c :
  head (runs (Seq (Lit w) r) s c) =
  match strip_prefix w s with
  | Some s' => option_map (extend w) (head (runs r s' c))
  | None => None
  end.
Proof.
  rewrite runs_Seq_eq, runs_Lit_eq.
  destruct (strip_prefix w s) as [s'|]; [|reflexivity].
  cbn [flat_map]. rewrite app_nil_r.
  destruct (runs r s' c); reflexivity.
Qed.

Lemma extend_nil x : extend [] x = x.
Proof. destruct x as [[a s] c]. reflexivity. Qed.

Lemma head_runs_Seq_Opt_Lit w r s c :
  head (runs (Seq (Opt (Lit w)) r) s c) =
  match strip_prefix w s with
  | Some s' =>
      match head (runs r s' c) with
      | Some x => Some (extend w x)
      | None => head (runs r s c)
      end
  | None => head (runs r s c)
  end.
Proof.
  rewrite runs_Seq_eq, runs_Opt_eq, runs_Lit_eq, flat_map_app.
  cbn [flat_map]. rewrite app_nil_r.
  assert (map (extend []) (runs r s c) = runs r s c) as ->.
  { rewrite <- (map_id (runs r s c)) at 2. apply map_ext, extend_nil. }
  destruct (strip_prefix w s) as [s'|]; [|reflexivity].
  cbn [flat_map]. rewrite app_nil_r.
  destruct (runs r s' c); reflexivity.
Qed.

Lemma head_runs_url_tail s c :
  head (runs (Seq (Lit (lit "://"))
                  (Plus (Class (fun y => negb (is_space y))))) s c)
  = with_caps c (url_tail s).
Proof.
  rewrite head_runs_Seq_Lit. unfold url_tail.
  destruct (strip_prefix (lit "://") s) as [s'|]; [|reflexivity].
  rewrite head_runs_Plus_nonspace.
  destruct (span_nonspace s') as [[|y a] rest]; reflexivity.
Qed.

Lemma head_runs_url s c :
  head (runs (Seq (Lit (lit "http"))
             (Seq (Opt (Lit (lit "s")))
             (Seq (Lit (lit "://"))
                  (Plus (Class (fun y => negb (is_space y))))))) s c)
  = with_caps c (url_at s).
Proof.
  rewrite head_runs_Seq_Lit. unfold url_at.
  destruct (strip_prefix (lit "http") s) as [s1|]; [|reflexivity].
  rewrite head_runs_Seq_Opt_Lit.
  destruct (strip_prefix (lit "s") s1) as [s2|].
  - rewrite !head_runs_url_tail.
    destruct (url_tail s2) as [[a rest]|]; [reflexivity|].
    cbn [with_caps]. destruct (url_tail s1) as [[a rest]|]; reflexivity.
  - rewrite head_runs_url_tail.
    destruct (url_tail s1) as [[a rest]|]; reflexivity.
Qed.

Lemma head_flat_map_cons {A B} (f : A -> list B) (x : A) (l : list A) :
  head (flat_map f (x :: l)) =
  match head (f x) with
  | Some y => Some y
  | None => head (flat_map f l)
  end.
Proof. cbn [flat_map]. destruct (f x); reflexivity. Qed.

Lemma head_map {A B} (f : A -> B) (l : list A) :
  head (map f l) = option_map f (head l).
Proof. destruct l; reflexivity. Qed.

(** The runs of the whole pattern after the lazy loop has given up
    [pre]: [rounds] are the runs of the loop on what is left. *)
Lemma head_runs_lazy_rounds n s pre c :
  (List.length s <= n)%nat ->
  head (flat_map
          (fun x : run =>
             let '(a, s1, c1) := x in
             map (extend (pre ++ a))
                 (runs (Group 2
                         (Seq (Lit (lit "http"))
                         (Seq (Opt (Lit (lit "s")))
                         (Seq (Lit (lit "://"))
                              (Plus (Class (fun y => negb (is_space y))))))))
                       s1 ((1%nat, pre ++ a) :: c1)))
          (star_loop (runs (Class is_dot)) false n s c))
  = match url_match_at s with
    | Some (g, u, rest) =>
        Some (pre ++ g ++ u, rest, (2%nat, u) :: (1%nat, pre ++ g) :: c)
    | None => None
    end.
Proof.
  set (body := runs (Class is_dot)).
  revert s pre. induction n as [|n IH]; intros s pre Hn;
    rewrite star_loop_eq; cbv zeta; rewrite head_flat_map_cons;
    rewrite head_map, runs_Group_eq, head_map, head_runs_url.
  - destruct s; [|cbn in Hn; lia].
    cbn [url_match_at]. destruct (url_at []) as [[u rest]|];
      cbn [with_caps option_map extend]; rewrite ?app_nil_r; reflexivity.
  - destruct s as [|x s]; cbn [url_match_at].
    + destruct (url_at []) as [[u rest]|];
        cbn [with_caps option_map extend]; rewrite ?app_nil_r; reflexivity.
    + destruct (url_at (x :: s)) as [[u rest]|];
        [cbn [with_caps option_map extend]; rewrite ?app_nil_r;
         reflexivity|].
      cbn [with_caps option_map]. unfold body at 2.
      rewrite runs_Class_eq. destruct (is_dot x); [|reflexivity].
      cbn [flat_map]. rewrite app_nil_r, flat_map_concat_map, map_map.
      rewrite <- flat_map_concat_map.
      erewrite flat_map_ext.
      * rewrite (IH s (pre ++ [x])) by (cbn in Hn; lia).
        destruct (url_match_at s) as [[[g u] rest]|]; [|reflexivity].
        rewrite <- !app_assoc. reflexivity.
      * intros [[a s1] c1]. cbn [extend]. rewrite <- !app_assoc.
        reflexivity.
Qed.

(** The matcher on [URL_REGEX_COMPILED] is the pattern read by hand. *)
Lemma re_match_URL_eq s :
  re_match URL_REGEX_COMPILED s =
  match url_match_at s with
  | Some (g, u, rest) =>
      Some (mkMatch (g ++ u) rest [(2%nat, u); (1%nat, g)])
  | None => None
  end.
Proof.
  unfold re_match.
  pose proof (head_runs_lazy_rounds (List.length s) s [] [] (le_n _)) as H.
  unfold URL_REGEX_COMPILED. rewrite runs_Seq_eq, runs_Group_eq, runs_Star_eq.
  rewrite flat_map_concat_map, map_map, <- flat_map_concat_map.
  match type of H with
  | head (flat_map ?f2 ?l) = _ =>
      match goal with
      | |- context [flat_map ?f l] =>
          rewrite (flat_map_ext f f2) by (intros [[? ?] ?]; reflexivity)
      end
  end.
  destruct (flat_map _ _) as [|x l] in H |- *.
  - destruct (url_match_at s) as [[[g u] rest]|]; [discriminate|].
    reflexivity.
  - destruct (url_match_at s) as [[[g u] rest]|]; [|discriminate].
    cbn in H. injection H as ->. reflexivity.
Qed.

(* ================================================================= *)
(** ** What the pattern read by hand finds *)

Lemma span_nonspace_spec s :
  s = fst (span_nonspace s) ++ snd (span_nonspace s) /\
  nonspace (fst (span_nonspace s)) /\
  ends_link (snd (span_nonspace s)).
Proof.
  induction s as [|x s (IH1 & IH2 & IH3)]; cbn [span_nonspace].
  - repeat split. constructor.
  - destruct (is_space x) eqn:Hx.
    + repeat split; [constructor|exact Hx].
    + destruct (span_nonspace s) as [a rest]. cbn [fst snd] in *.
      repeat split; [cbn; congruence| constructor; assumption | exact IH3].
Qed.

Lemma span_nonspace_head x s :
  is_space x = false -> fst (span_nonspace (x :: s)) <> [].
Proof.
  intros Hx. cbn [span_nonspace]. rewrite Hx.
  destruct (span_nonspace s). discriminate.
Qed.

Lemma url_tail_spec s a rest :
  url_tail s = Some (a, rest) ->
  exists tail,
    a = lit "://" ++ tail /\ tail <> [] /\ nonspace tail /\
    s = a ++ rest /\ ends_link rest.
Proof.
  unfold url_tail.
  destruct (strip_prefix (lit "://") s) as [s'|] eqn:Hs; [|discriminate].
  apply strip_prefix_app in Hs as ->.
  destruct (span_nonspace_spec s') as (H1 & H2 & H3).
  destruct (span_nonspace s') as [[|y t] r]; [discriminate|].
  intros [= <- <-]. cbn [fst snd] in *. exists (y :: t).
  split; [reflexivity|]. split; [discriminate|]. split; [exact H2|].
  split; [|exact H3]. rewrite H1 at 1. reflexivity.
Qed.

Lemma url_tail_complete tail r :
  tail <> [] -> nonspace tail -> url_tail (lit "://" ++ tail ++ r) <> None.
Proof.
  intros Hne Hns. unfold url_tail. rewrite strip_prefix_of_app.
  destruct tail as [|y t]; [congruence|]. inversion Hns as [|? ? Hy _]; subst.
  pose proof (span_nonspace_head y (t ++ r) Hy) as H.
  cbn [app]. destruct (span_nonspace (y :: t ++ r)) as [[|z a] rest];
    [cbn in H; congruence|discriminate].
Qed.

Lemma nonspace_lit_scheme :
  nonspace (lit "http://") /\ nonspace (lit "https://").
Proof. split; repeat constructor. Qed.

Lemma url_at_spec s u rest :
  url_at s = Some (u, rest) ->
  s = u ++ rest /\ url_segment u /\ ends_link rest.
Proof.
  unfold url_at.
  destruct (strip_prefix (lit "http") s) as [s1|] eqn:H1; [|discriminate].
  apply strip_prefix_app in H1 as ->.
  assert (forall s0 scheme,
            (scheme = lit "http" \/ scheme = lit "https") ->
            after scheme (url_tail s0) = Some (u, rest) ->
            scheme ++ s0 = u ++ rest /\ url_segment u /\ ends_link rest)
    as Htail.
  { intros s0 scheme Hsch. destruct (url_tail s0) as [[a r]|] eqn:Ht;
      [|discriminate].
    cbn [after]. intros [= <- <-].
    apply url_tail_spec in Ht as (tail & -> & Hne & Hns & -> & He).
    split; [rewrite <- !app_assoc; reflexivity|]. split; [|exact He].
    exists (scheme ++ lit "://"), tail. split; [rewrite <- app_assoc; reflexivity|].
    split; [destruct Hsch as [-> | ->]; auto|]. auto. }
  destruct (strip_prefix (lit "s") s1) as [s2|] eqn:H2.
  - apply strip_prefix_app in H2 as ->.
    destruct (url_tail s2) as [[a r]|] eqn:Ht.
    + cbn [after]. intros [= <- <-].
      destruct (Htail s2 (lit "https")) as (E & Hu & He); [auto| |].
      * rewrite Ht. cbn [after]. reflexivity.
      * split; [exact E|]. split; assumption.
    + intros H. apply (Htail (lit "s" ++ s2) (lit "http")); auto.
  - intros H. apply (Htail s1 (lit "http")); auto.
Qed.

Lemma url_at_complete u r : url_segment u -> url_at (u ++ r) <> None.
Proof.
  intros (scheme & tail & -> & Hsch & Hne & Hns). unfold url_at.
  pose proof (url_tail_complete tail r Hne Hns) as Ht.
  destruct Hsch as [-> | ->].
  - rewrite <- app_assoc.
    change (lit "http://" ++ tail ++ r)
      with (lit "http" ++ (lit "://" ++ tail ++ r)).
    rewrite strip_prefix_of_app.
    change (strip_prefix (lit "s") (lit "://" ++ tail ++ r)) with (@None str).
    destruct (url_tail (lit "://" ++ tail ++ r)) as [[a rest]|];
      [discriminate|congruence].
  - rewrite <- app_assoc.
    change (lit "https://" ++ tail ++ r)
      with (lit "http" ++ (lit "s" ++ (lit "://" ++ tail ++ r))).
    rewrite !strip_prefix_of_app.
    destruct (url_tail (lit "://" ++ tail ++ r)) as [[a rest]|];
      [discriminate|congruence].
Qed.

Lemma url_match_at_spec s g u rest :
  url_match_at s = Some (g, u, rest) ->
  s = g ++ u ++ rest /\
  url_at (u ++ rest) = Some (u, rest) /\
  Forall (fun x => is_dot x = true) g /\
  (forall g1 g2, g = g1 ++ g2 -> g2 <> [] ->
                 url_at (g2 ++ u ++ rest) = None).
Proof.
  assert (forall s0 u0 r0,
            url_at s0 = Some (u0, r0) ->
            s0 = [] ++ u0 ++ r0 /\
            url_at (u0 ++ r0) = Some (u0, r0) /\
            Forall (fun x => is_dot x = true) [] /\
            (forall g1 g2 : str, [] = g1 ++ g2 -> g2 <> [] ->
                                 url_at (g2 ++ u0 ++ r0) = None)) as Hnow.
  { intros s0 u0 r0 Hu. apply url_at_spec in Hu as Hs.
    destruct Hs as (Hs & _). split; [exact Hs|].
    split; [rewrite <- Hs; exact Hu|]. split; [constructor|].
    intros g1 g2 Hg Hne. destruct g1, g2; cbn in Hg; congruence. }
  revert g. induction s as [|x s IH]; intros g; cbn [url_match_at].
  - destruct (url_at []) as [[u' r']|] eqn:Hu; [|discriminate].
    intros [= <- <- <-]. apply Hnow, Hu.
  - destruct (url_at (x :: s)) as [[u' r']|] eqn:Hu.
    + intros [= <- <- <-]. apply Hnow, Hu.
    + destruct (is_dot x) eqn:Hx; [|discriminate].
      destruct (url_match_at s) as [[[g' u'] r']|]; [|discriminate].
      intros [= <- <- <-].
      destruct (IH g' eq_refl) as (Hs & Hat & Hdot & Hlazy).
      split; [cbn; congruence|]. split; [exact Hat|].
      split; [constructor; assumption|].
      intros g1 g2 Hg Hne. destruct g1 as [|y g1].
      * cbn in Hg. subst g2. cbn [app]. rewrite <- Hs. exact Hu.
      * cbn in Hg. injection Hg as _ Hg. eapply Hlazy; eassumption.
Qed.

Lemma url_match_at_none s : url_match_at s = None -> url_at s = None.
Proof.
  destruct s; cbn [url_match_at];
    destruct (url_at _) as [[u r]|]; congruence.
Qed.

(** Before a link, text without a line feed is a first group. *)
Lemma url_match_at_complete s1 s2 :
  Forall (fun x => is_dot x = true) s1 ->
  url_at s2 <> None ->
  url_match_at (s1 ++ s2) <> None.
Proof.
  intros Hdot Hu. induction Hdot as [|x s1 Hx _ IH]; cbn [app].
  - destruct s2; cbn [url_match_at];
      destruct (url_at _) as [[u r]|]; congruence.
  - cbn [url_match_at]. destruct (url_at (x :: s1 ++ s2)) as [[u r]|];
      [discriminate|].
    rewrite Hx. destruct (url_match_at (s1 ++ s2)) as [[[g u] r]|];
      [discriminate|congruence].
Qed.

(** What [search] finds: it skips [d], where the pattern does not
    match, and then matches [g], [u]. *)
Lemma re_search_URL_spec s m :
  re_search URL_REGEX_COMPILED s = Some m ->
  exists d g u,
    s = d ++ g ++ u ++ m_rest m /\
    m = mkMatch (g ++ u) (m_rest m) [(2%nat, u); (1%nat, g)] /\
    url_match_at (g ++ u ++ m_rest m) = Some (g, u, m_rest m) /\
    (forall d1 d2, d = d1 ++ d2 -> d2 <> [] ->
                   url_match_at (d2 ++ g ++ u ++ m_rest m) = None).
Proof.
  induction s as [|x s IH]; cbn [re_search]; rewrite re_match_URL_eq.
  - destruct (url_match_at []) as [[[g u] rest]|] eqn:Hm; [|discriminate].
    intros [= <-]. cbn [m_rest].
    apply url_match_at_spec in Hm as Hs. destruct Hs as (Hs & _).
    exists [], g, u. rewrite <- Hs.
    split; [reflexivity|]. split; [reflexivity|]. split; [exact Hm|].
    intros d1 d2 Hd Hne. destruct d1, d2; cbn in Hd; congruence.
  - destruct (url_match_at (x :: s)) as [[[g u] rest]|] eqn:Hm.
    + intros [= <-]. cbn [m_rest].
      apply url_match_at_spec in Hm as Hs. destruct Hs as (Hs & _).
      exists [], g, u. rewrite <- Hs.
      split; [reflexivity|]. split; [reflexivity|]. split; [exact Hm|].
      intros d1 d2 Hd Hne. destruct d1, d2; cbn in Hd; congruence.
    + intros H. destruct (IH H) as (d & g & u & Hs & Hmm & Hat & Hskip).
      exists (x :: d), g, u.
      split; [cbn; congruence|]. split; [exact Hmm|]. split; [exact Hat|].
      intros d1 d2 Hd Hne. destruct d1 as [|y d1].
      * cbn in Hd. subst d2. cbn [app]. rewrite <- Hs. exact Hm.
      * cbn in Hd. injection Hd as _ Hd. eapply Hskip; eassumption.
Qed.

Lemma re_search_URL_none s :
  re_search URL_REGEX_COMPILED s = None ->
  forall s1 s2, s = s1 ++ s2 -> url_at s2 = None.
Proof.
  induction s as [|x s IH]; cbn [re_search]; rewrite re_match_URL_eq.
  - destruct (url_match_at []) as [[[g u] rest]|] eqn:Hm; [discriminate|].
    intros _ s1 s2 Hs. destruct s1, s2; try discriminate.
    apply url_match_at_none, Hm.
  - destruct (url_match_at (x :: s)) as [[[g u] rest]|] eqn:Hm;
      [discriminate|].
    intros H s1 s2 Hs. destruct s1 as [|y s1].
    + cbn in Hs. subst s2. apply url_match_at_none, Hm.
    + cbn in Hs. injection Hs as _ Hs. eapply IH; eassumption.
Qed.

(* ================================================================= *)
(** ** Splitting the message by its last link *)

Lemma split_from_none n u piece R :
  (forall R1 R2, R = R1 ++ R2 -> strip_prefix u R2 = None) ->
  (List.length R < n)%nat ->
  split_from n u piece R = [piece ++ R].
Proof.
  revert piece R. induction n as [|n IH]; intros piece R Hno Hn; [lia|].
  cbn [split_from]. rewrite (Hno [] R eq_refl).
  destruct R as [|x R]; [rewrite app_nil_r; reflexivity|].
  rewrite IH.
  - rewrite <- app_assoc. reflexivity.
  - intros R1 R2 HR. apply (Hno (x :: R1) R2). cbn. congruence.
  - cbn in Hn. lia.
Qed.

Lemma last_item_cons {A} (x : A) (l : list A) :
  l <> [] -> last_item (x :: l) = last_item l.
Proof. destruct l; [congruence|reflexivity]. Qed.

Lemma nonspace_app a b : nonspace (a ++ b) -> nonspace a /\ nonspace b.
Proof. unfold nonspace. apply Forall_app. Qed.

Lemma url_segment_nonspace u : url_segment u -> nonspace u.
Proof.
  intros (scheme & tail & -> & Hsch & _ & Hns).
  apply Forall_app. split; [|exact Hns].
  destruct Hsch as [-> | ->]; apply nonspace_lit_scheme.
Qed.

(** [message.split(u)[-1]] is what follows the link [u] when nothing
    after [u] is an occurrence of it, and no occurrence before it runs
    into it. *)
Lemma split_from_last n u piece P R :
  url_segment u ->
  (forall R1 R2, R = R1 ++ R2 -> url_at R2 = None) ->
  no_straddle P u R ->
  (List.length (P ++ u ++ R) < n)%nat ->
  last_item (split_from n u piece (P ++ u ++ R)) = Ok R.
Proof.
  intros Hu HR. revert piece P.
  assert (forall R1 R2, R = R1 ++ R2 -> strip_prefix u R2 = None) as HR'.
  { intros R1 R2 E. destruct (strip_prefix u R2) as [r|] eqn:Hs; [|reflexivity].
    apply strip_prefix_app in Hs as ->.
    exfalso. eapply url_at_complete; [exact Hu|]. eapply HR. exact E. }
  pose proof (url_segment_nonempty u Hu) as Hne.
  induction n as [|n IH]; intros piece P HP Hn; [lia|].
  cbn [split_from].
  destruct (strip_prefix u (P ++ u ++ R)) as [r|] eqn:Hs.
  - rewrite last_item_cons by apply split_from_nonempty.
    destruct P as [|x P].
    + cbn [app] in Hs. rewrite strip_prefix_of_app in Hs.
      injection Hs as <-. rewrite split_from_none; [reflexivity|exact HR'|].
      cbn [app] in Hn. rewrite List.length_app in Hn.
      destruct u; [congruence|]. cbn in Hn. lia.
    + apply strip_prefix_app in Hs as Hs'.
      apply app_eq_app in Hs' as [l [[HP2 Hr]|[Hu2 Hr]]].
      * rewrite HP2, <- app_assoc in Hs. rewrite strip_prefix_of_app in Hs.
        injection Hs as <-. apply IH.
        -- intros P1 P2 E. apply (HP (u ++ P1) P2).
           rewrite HP2, E, <- app_assoc. reflexivity.
        -- rewrite HP2, <- app_assoc, List.length_app in Hn.
           destruct u; [congruence|]. cbn in Hn |- *. lia.
      * exfalso. pose proof (url_segment_nonspace u Hu) as Hns.
        rewrite Hu2 in Hns. apply nonspace_app in Hns as [Hns _].
        specialize (HP [] (x :: P) eq_refl ltac:(discriminate) Hns).
        apply strip_prefix_app in Hs. rewrite Hs in HP.
        eapply url_at_complete; eassumption.
  - destruct P as [|x P].
    + cbn [app] in Hs. rewrite strip_prefix_of_app in Hs. discriminate.
    + cbn [app]. apply IH.
      * intros P1 P2 E. apply (HP (x :: P1) P2). cbn. congruence.
      * cbn in Hn. cbn. lia.
Qed.

(* ================================================================= *)
(** ** The matches of a message *)

(** A successful [search], in full: [d] is skipped, [g] and [u] are
    the groups, no link starts in [d] or [g], and a message without a
    line feed has nothing skipped. *)
Lemma re_search_URL_found s m :
  re_search URL_REGEX_COMPILED s = Some m ->
  exists d g u,
    s = d ++ g ++ u ++ m_rest m /\
    m_text m = g ++ u /\
    group_text m 1 = g /\
    group_text m 2 = u /\
    url_segment u /\
    ends_link (m_rest m) /\
    (forall x y, d ++ g = x ++ y -> y <> [] ->
                 url_at (y ++ u ++ m_rest m) = None) /\
    (Forall (fun c => is_dot c = true) s -> d = []).
Proof.
  intros H. apply re_search_URL_spec in H as (d & g & u & Hs & Hm & Hat & Hskip).
  apply url_match_at_spec in Hat as Hat'.
  destruct Hat' as (_ & Hu & Hdot & Hlazy).
  apply url_at_spec in Hu as (_ & Hseg & Hend).
  exists d, g, u. rewrite Hm at 2 3 4. cbn [m_text].
  split; [exact Hs|]. split; [reflexivity|]. split; [reflexivity|].
  split; [reflexivity|]. split; [exact Hseg|]. split; [exact Hend|]. split.
  - intros x y E Hy. apply app_eq_app in E as [l [[Hd Hy']|[Hx Hg]]].
    + destruct l as [|z l].
      * cbn in Hy'. subst y. apply (Hlazy [] g eq_refl Hy).
      * apply url_match_at_none. rewrite Hy', <- app_assoc.
        apply (Hskip x (z :: l) Hd). discriminate.
    + apply (Hlazy l y Hg Hy).
  - intros Hall. destruct d as [|z d]; [reflexivity|]. exfalso.
    rewrite Hs in Hall.
    rewrite (app_assoc (z :: d) g) in Hall.
    apply Forall_app in Hall as [Hdg _].
    eapply (url_match_at_complete ((z :: d) ++ g) (u ++ m_rest m)).
    + exact Hdg.
    + apply url_at_complete. exact Hseg.
    + rewrite <- app_assoc. apply (Hskip [] (z :: d) eq_refl). discriminate.
Qed.

Lemma findall_from_URL_eq n s :
  findall_from (S n) URL_REGEX_COMPILED s =
  match re_search URL_REGEX_COMPILED s with
  | None => []
  | Some m => m :: findall_from n URL_REGEX_COMPILED (m_rest m)
  end.
Proof.
  cbn [findall_from].
  destruct (re_search URL_REGEX_COMPILED s) as [m|] eqn:Hs; [|reflexivity].
  apply re_search_URL_found in Hs
    as (d & g & u & _ & Ht & _ & _ & Hseg & _).
  apply url_segment_nonempty in Hseg.
  rewrite Ht. destruct (g ++ u) eqn:E; [|reflexivity].
  apply app_eq_nil in E as [_ E]. congruence.
Qed.

Lemma ends_link_url u r : url_segment u -> ends_link (u ++ r) -> False.
Proof.
  intros (scheme & tail & -> & [-> | ->] & _); cbn; discriminate.
Qed.

Lemma ends_link_nonspace a r :
  a <> [] -> nonspace a -> ends_link (a ++ r) -> False.
Proof.
  destruct a as [|x a]; [congruence|]. intros _ Hns. cbn.
  inversion Hns; subst. congruence.
Qed.

(** The last match of [findall]: its link [u] splits the message into
    [P], [u] and the rest of the match, with no link after it and none
    running into it. *)
Lemma findall_from_URL_last n s Pre ms m :
  (List.length s < n)%nat ->
  Pre = [] \/ ends_link s ->
  findall_from n URL_REGEX_COMPILED s = ms ++ [m] ->
  exists P,
    Pre ++ s = P ++ group_text m 2 ++ m_rest m /\
    url_segment (group_text m 2) /\
    (forall R1 R2, m_rest m = R1 ++ R2 -> url_at R2 = None) /\
    no_straddle P (group_text m 2) (m_rest m).
Proof.
  revert s Pre ms. induction n as [|n IH]; intros s Pre ms Hn Hinv; [lia|].
  rewrite findall_from_URL_eq.
  destruct (re_search URL_REGEX_COMPILED s) as [m1|] eqn:Hs;
    [|intros E; destruct ms; discriminate].
  apply re_search_URL_found in Hs
    as (d & g & u & Es & Ht & Hg1 & Hg2 & Hseg & Hend & Hno & _).
  assert (List.length (m_rest m1) < n)%nat as Hn'.
  { rewrite Es, !List.length_app in Hn.
    apply url_segment_nonempty in Hseg. destruct u; [congruence|].
    cbn in Hn. lia. }
  destruct (findall_from n URL_REGEX_COMPILED (m_rest m1)) as [|m2 l] eqn:Hf.
  - intros E. destruct ms as [|? [|]]; try discriminate.
    injection E as <-. rewrite Hg2.
    exists (Pre ++ d ++ g). split; [rewrite Es, <- !app_assoc; reflexivity|].
    split; [exact Hseg|]. split.
    + destruct n as [|n']; [lia|]. rewrite findall_from_URL_eq in Hf.
      destruct (re_search URL_REGEX_COMPILED (m_rest m1)) eqn:Hr;
        [discriminate|].
      apply re_search_URL_none. exact Hr.
    + intros P1 P2 EP HP2 Hns.
      apply app_eq_app in EP as [l [[HPre HP2']|[HP1 Hdg]]].
      * destruct l as [|z l].
        -- cbn in HP2'. subst P2. apply (Hno [] (d ++ g) eq_refl HP2).
        -- exfalso. destruct Hinv as [->|Hinv];
             [destruct P1; discriminate|].
           rewrite HP2' in Hns. apply nonspace_app in Hns as [_ Hns].
           rewrite Es, app_assoc in Hinv.
           destruct (d ++ g) as [|y dg] eqn:Edg.
           ++ cbn [app] in Hinv. eapply ends_link_url; eassumption.
           ++ eapply ends_link_nonspace; [|exact Hns|exact Hinv].
              discriminate.
      * apply (Hno l P2 Hdg HP2).
  - intros E. destruct ms as [|m0 ms]; [discriminate|].
    injection E as <- E.
    destruct (IH (m_rest m1) (Pre ++ d ++ g ++ u) ms Hn')
      as (P & EP & Hrest); [right; exact Hend|rewrite Hf; exact E|].
    exists P. split; [|exact Hrest].
    rewrite <- EP, Es, <- !app_assoc. reflexivity.
Qed.

(* ================================================================= *)
(** ** The link splitter, in general *)

Lemma rest_of_last s ms m : rest_of s (ms ++ [m]) = m_rest m.
Proof.
  revert s. induction ms as [|m0 ms IH]; intros s; [reflexivity|].
  cbn [app rest_of]. apply IH.
Qed.

(** The trailing segment that [message.split(parts[-1])[-1]] recovers
    is the text after the last match, on every message. *)
Lemma split_message_by_link_eq message :
  split_message_by_link message
  = Ok (segments_of message (findall URL_REGEX_COMPILED message)).
Proof.
  unfold split_message_by_link, segments_of.
  destruct (findall URL_REGEX_COMPILED message) as [|m0 ms0] eqn:Hf;
    [reflexivity|].
  assert (m0 :: ms0 <> []) as Hne by discriminate.
  destruct (exists_last Hne) as (ms & m & E). rewrite E in *. clear Hne E.
  rewrite rest_of_last.
  destruct (findall_from_URL_last (S (List.length message)) message [] ms m)
    as (P & EP & Hseg & Hrest & HP); [lia|left; reflexivity|exact Hf|].
  cbn [app] in EP.
  rewrite fold_left_app. cbn [fold_left].
  destruct (add_match_link (fold_left add_match ms []) m Hseg) as (parts & ->).
  rewrite last_item_app. cbn [bind_result]. unfold py_split.
  pose proof (url_segment_nonempty _ Hseg) as Hu.
  destruct (group_text m 2) as [|y u] eqn:Eu; [congruence|].
  cbn [bind_result]. rewrite EP at 2.
  rewrite (split_from_last _ (y :: u) [] P (m_rest m) Hseg Hrest HP)
    by (rewrite <- EP; lia).
  reflexivity.
Qed.

Lemma str_eqb_nil_true (a : str) : str_eqb a [] = true -> a = [].
Proof. destruct a; [reflexivity|discriminate]. Qed.

Lemma concat_add_match parts m :
  concat (add_match parts m)
  = concat parts ++ group_text m 1 ++ group_text m 2.
Proof.
  unfold add_match.
  destruct (str_eqb (group_text m 1) []) eqn:E1;
    destruct (str_eqb (group_text m 2) []) eqn:E2;
    try apply str_eqb_nil_true in E1 as ->;
    try apply str_eqb_nil_true in E2 as ->;
    rewrite ?concat_app; cbn [concat app]; rewrite ?app_nil_r, <- ?app_assoc;
    reflexivity.
Qed.

Lemma concat_fold_add_match ms parts :
  concat (fold_left add_match ms parts)
  = concat parts
    ++ concat (map (fun m => group_text m 1 ++ group_text m 2) ms).
Proof.
  revert parts. induction ms as [|m ms IH]; intros parts; cbn [fold_left map concat].
  - rewrite app_nil_r. reflexivity.
  - rewrite IH, concat_add_match, <- !app_assoc. reflexivity.
Qed.

(** On a message without a line feed the matches and what is left
    after them make up the message. *)
Lemma findall_from_URL_covers n s :
  (List.length s < n)%nat ->
  Forall (fun c => is_dot c = true) s ->
  concat (map (fun m => group_text m 1 ++ group_text m 2)
              (findall_from n URL_REGEX_COMPILED s))
  ++ rest_of s (findall_from n URL_REGEX_COMPILED s) = s.
Proof.
  revert s. induction n as [|n IH]; intros s Hn Hdot; [lia|].
  rewrite findall_from_URL_eq.
  destruct (re_search URL_REGEX_COMPILED s) as [m|] eqn:Hs; [|reflexivity].
  apply re_search_URL_found in Hs
    as (d & g & u & Es & _ & Hg1 & Hg2 & Hseg & _ & _ & Hd).
  rewrite (Hd Hdot) in Es. cbn [app] in Es.
  cbn [map concat rest_of]. rewrite Hg1, Hg2, <- !app_assoc, IH.
  - symmetry. exact Es.
  - rewrite Es, !List.length_app in Hn.
    apply url_segment_nonempty in Hseg. destruct u; [congruence|].
    cbn in Hn. lia.
  - rewrite Es in Hdot. apply Forall_app in Hdot as [_ Hdot].
    apply Forall_app in Hdot as [_ Hdot]. exact Hdot.
Qed.

(** On a message without a line feed the segments add up to the
    message. *)
Theorem split_message_by_link_one_line message :
  Forall (fun c => c <> LF) message ->
  exists parts,
    split_message_by_link message = Ok parts /\ concat parts = message.
Proof.
  intros Hlf. rewrite split_message_by_link_eq. eexists. split; [reflexivity|].
  assert (Forall (fun c => is_dot c = true) message) as Hdot.
  { eapply List.Forall_impl; [|exact Hlf]. intros c Hc. unfold is_dot.
    apply negb_true_iff, Nat.eqb_neq. intros E. apply Hc.
    unfold code in E. rewrite <- (ascii_nat_embedding c), E. reflexivity. }
  pose proof (findall_from_URL_covers (S (List.length message)) message
                ltac:(lia) Hdot) as Hc.
  fold (findall URL_REGEX_COMPILED message) in Hc.
  unfold segments_of.
  destruct (findall URL_REGEX_COMPILED message) as [|m ms] eqn:Hf.
  - cbn. apply app_nil_r.
  - destruct (str_eqb (rest_of message (m :: ms)) []) eqn:E.
    + apply str_eqb_nil_true in E. rewrite E, app_nil_r in Hc.
      rewrite concat_fold_add_match. exact Hc.
    + rewrite concat_app, concat_fold_add_match. cbn [concat app].
      rewrite app_nil_r. exact Hc.
Qed.

(* ================================================================= *)
(** ** The bounds on the loops are never reached *)

(** [findall] on the link pattern does not depend on the bound, once
    the bound exceeds the length of the message. *)
Lemma findall_from_URL_bound n1 n2 s :
  (List.length s < n1)%nat -> (List.length s < n2)%nat ->
  findall_from n1 URL_REGEX_COMPILED s = findall_from n2 URL_REGEX_COMPILED s.
Proof.
  revert n2 s. induction n1 as [|n1 IH]; intros n2 s H1 H2; [lia|].
  destruct n2 as [|n2]; [lia|]. rewrite !findall_from_URL_eq.
  destruct (re_search URL_REGEX_COMPILED s) as [m|] eqn:Hs; [|reflexivity].
  apply re_search_URL_found in Hs as (d & g & u & Es & _ & _ & _ & Hseg & _).
  apply url_segment_nonempty in Hseg.
  assert (List.length (m_rest m) < List.length s)%nat as Hlt.
  { apply (f_equal (@List.length ascii)) in Es.
    rewrite !List.length_app in Es. destruct u; [congruence|].
    cbn in Es. lia. }
  f_equal. apply IH; lia.
Qed.

(** Nor does [str.split] by a separator that is not empty. *)
Lemma split_from_bound n1 n2 sep piece s :
  sep <> [] ->
  (List.length s < n1)%nat -> (List.length s < n2)%nat ->
  split_from n1 sep piece s = split_from n2 sep piece s.
Proof.
  intros Hsep. revert n2 piece s.
  induction n1 as [|n1 IH]; intros n2 piece s H1 H2; [lia|].
  destruct n2 as [|n2]; [lia|]. cbn [split_from].
  destruct (strip_prefix sep s) as [rest|] eqn:Hs.
  - f_equal. apply strip_prefix_app in Hs.
    assert (List.length rest < List.length s)%nat.
    { rewrite Hs, List.length_app. destruct sep; [congruence|]. cbn. lia. }
    apply IH; lia.
  - destruct s as [|x s]; [reflexivity|]. cbn in H1, H2. apply IH; lia.
Qed.

(* ================================================================= *)
(** ** The link splitter on messages of several lines *)

Lemma split_message_by_link_no_link message :
  findall URL_REGEX_COMPILED message = [] ->
  split_message_by_link message = Ok [message].
Proof. intros H. unfold split_message_by_link. rewrite H. reflexivity. Qed.

(** C2: the segments do not always add up to the message.  [.] stops at
    a line feed, so [findall] starts the first group after the last
    line feed before a link and the lines before it are lost. *)
Theorem split_message_by_link_loses_line :
  let message := lit "hello" ++ [LF] ++ lit "world http://a.b tail" in
  split_message_by_link message
  = Ok [lit "world "; lit "http://a.b"; lit " tail"] /\
  concat [lit "world "; lit "http://a.b"; lit " tail"] <> message.
Proof.
  cbv zeta. split.
  - vm_compute. reflexivity.
  - vm_compute. discriminate.
Qed.

(** C6: of the text between two links only the last line is emitted:
    here the span between [http://x] and [http://y] is [" b\nc "], and
    the segment emitted for it is ["c "]. *)
Theorem split_message_by_link_cuts_span :
  let message := lit "a http://x b" ++ [LF] ++ lit "c http://y" in
  message = lit "a " ++ lit "http://x"
            ++ (lit " b" ++ [LF] ++ lit "c ") ++ lit "http://y" /\
  split_message_by_link message
  = Ok [lit "a "; lit "http://x"; lit "c "; lit "http://y"].
Proof. split; vm_compute; reflexivity. Qed.

(* ================================================================= *)
(** ** More on the link splitter *)

Lemma is_dot_false x : is_dot x = false -> x = LF.
Proof.
  unfold is_dot, code, LF. intros H. apply negb_false_iff, Nat.eqb_eq in H.
  rewrite <- (ascii_nat_embedding x), H. reflexivity.
Qed.

(** What [search] skips before a match is nothing or ends in a line
    feed, and the first group has no line feed. *)
Lemma re_search_URL_skipped s m :
  re_search URL_REGEX_COMPILED s = Some m ->
  exists d,
    s = d ++ group_text m 1 ++ group_text m 2 ++ m_rest m /\
    (d = [] \/ exists d', d = d' ++ [LF]) /\
    Forall (fun c => c <> LF) (group_text m 1).
Proof.
  intros H. apply re_search_URL_spec in H as (d & g & u & Hs & Hm & Hat & Hskip).
  exists d. rewrite Hm at 1 2 4. cbn [group_text m_caps cap_get Nat.eqb].
  split; [exact Hs|].
  apply url_match_at_spec in Hat as Hat'. destruct Hat' as (_ & _ & Hdot & _).
  split.
  - destruct d as [|z d0]; [left; reflexivity|right].
    assert (z :: d0 <> []) as Hne by discriminate.
    destruct (exists_last Hne) as (d' & x & E). rewrite E. exists d'.
    specialize (Hskip d' [x] E ltac:(discriminate)).
    cbn [app url_match_at] in Hskip. rewrite Hat in Hskip.
    destruct (url_at (x :: g ++ u ++ m_rest m)) as [[? ?]|]; [discriminate|].
    destruct (is_dot x) eqn:Hx; [discriminate|].
    apply is_dot_false in Hx as ->. reflexivity.
  - eapply List.Forall_impl; [|exact Hdot]. cbn. intros c Hc ->.
    vm_compute in Hc. discriminate.
Qed.

(** The message is what [findall] skips before each match, the
    matches, and what is left after the last.  What is skipped is whole
    lines, the first group of a match has no line feed and its second
    group is a link, and the pattern finds nothing in what is left. *)
Lemma findall_from_URL_skipped n s :
  (List.length s < n)%nat ->
  exists skipped : list str,
    Forall2 (fun d m =>
               whole_lines d /\
               Forall (fun c => c <> LF) (group_text m 1) /\
               url_segment (group_text m 2))
            skipped (findall_from n URL_REGEX_COMPILED s) /\
    s = concat (zip_with (fun d m => d ++ group_text m 1 ++ group_text m 2)
                         skipped (findall_from n URL_REGEX_COMPILED s))
        ++ rest_of s (findall_from n URL_REGEX_COMPILED s) /\
    re_search URL_REGEX_COMPILED
              (rest_of s (findall_from n URL_REGEX_COMPILED s)) = None.
Proof.
  revert s. induction n as [|n IH]; intros s Hn; [lia|].
  rewrite findall_from_URL_eq.
  destruct (re_search URL_REGEX_COMPILED s) as [m|] eqn:Hs.
  - apply re_search_URL_found in Hs as Hf.
    destruct Hf as (d0 & g0 & u & Es & _ & _ & Hg2 & Hseg & _).
    apply re_search_URL_skipped in Hs as (d & Ed & Hd & Hg1).
    destruct (IH (m_rest m)) as (skipped & Hall & E & Hnone).
    { apply (f_equal (@List.length ascii)) in Ed.
      rewrite !List.length_app in Ed. rewrite Hg2 in Ed.
      apply url_segment_nonempty in Hseg. destruct u; [congruence|].
      cbn in Ed. lia. }
    exists (d :: skipped). cbn [zip_with concat rest_of]. split; [|split].
    + constructor; [|exact Hall].
      split; [exact Hd|]. split; [exact Hg1|]. rewrite Hg2. exact Hseg.
    + rewrite <- !app_assoc, <- E. exact Ed.
    + exact Hnone.
  - exists []. cbn [zip_with concat rest_of app].
    split; [constructor|]. split; [reflexivity|exact Hs].
Qed.

Lemma concat_segments_of message ms :
  concat (segments_of message ms)
  = concat (map (fun m => group_text m 1 ++ group_text m 2) ms)
    ++ rest_of message ms.
Proof.
  unfold segments_of. destruct ms as [|m ms]; [cbn; apply app_nil_r|].
  destruct (str_eqb (rest_of message (m :: ms)) []) eqn:E.
  - apply str_eqb_nil_true in E. rewrite E, app_nil_r.
    apply concat_fold_add_match.
  - rewrite concat_app, concat_fold_add_match. cbn [concat app].
    rewrite app_nil_r. reflexivity.
Qed.

(** X1: on every message [split_message_by_link] returns the groups of
    the matches that are not empty, in order, followed by the text
    after the last match when it is not empty (the whole message when
    there is no match): [message.split(parts[-1])[-1]] recovers exactly
    the text after the last match, whatever occurs before it. *)
Theorem split_message_by_link_segments message :
  split_message_by_link message
  = Ok (segments_of message (findall URL_REGEX_COMPILED message)).
Proof. apply split_message_by_link_eq. Qed.

(** X2: the segments of a message without a line feed add up to the
    message. *)
Theorem split_message_by_link_round_trip message :
  Forall (fun c => c <> LF) message ->
  exists parts,
    split_message_by_link message = Ok parts /\ concat parts = message.
Proof. apply split_message_by_link_one_line. Qed.

Lemma split_message_by_link_round_trip_witness :
  Forall (fun c => c <> LF) (lit "see https://a.b/c and http://x.y ok") /\
  exists parts,
    split_message_by_link (lit "see https://a.b/c and http://x.y ok")
    = Ok parts /\
    concat parts = lit "see https://a.b/c and http://x.y ok".
Proof.
  assert (Forall (fun c => c <> LF)
                 (lit "see https://a.b/c and http://x.y ok")) as H.
  { vm_compute. repeat constructor; discriminate. }
  split; [exact H|].
  apply (split_message_by_link_round_trip
           (lit "see https://a.b/c and http://x.y ok") H).
Defined.

(** X5: what the segments leave out of a message.  With the matches
    that [findall] finds for the link pattern, in their order, the
    message is [d1 g1 u1 d2 g2 u2 ... rest]: [gi] and [ui] are the two
    groups of the [i]-th match, [ui] is a link, [gi] has no line feed,
    [di] is the text skipped before the match, which is whole lines
    (nothing, or text that ends in a line feed), and [rest] is what is
    left after the last match, in which the pattern finds nothing.  The
    segments add up to [g1 u1 g2 u2 ... rest]: what is lost is the
    [di], the lines before the line of a link, and nothing else; a
    message without a match loses nothing. *)
Theorem split_message_by_link_leaves_out message :
  exists parts skipped,
    split_message_by_link message = Ok parts /\
    Forall2 (fun d m =>
               whole_lines d /\
               Forall (fun c => c <> LF) (group_text m 1) /\
               url_segment (group_text m 2))
            skipped (findall URL_REGEX_COMPILED message) /\
    message
    = concat (zip_with (fun d m => d ++ group_text m 1 ++ group_text m 2)
                       skipped (findall URL_REGEX_COMPILED message))
      ++ rest_of message (findall URL_REGEX_COMPILED message) /\
    concat parts
    = concat (map (fun m => group_text m 1 ++ group_text m 2)
                  (findall URL_REGEX_COMPILED message))
      ++ rest_of message (findall URL_REGEX_COMPILED message) /\
    findall URL_REGEX_COMPILED
            (rest_of message (findall URL_REGEX_COMPILED message)) = [].
Proof.
  destruct (findall_from_URL_skipped (S (List.length message)) message)
    as (skipped & Hall & E & Hnone); [lia|].
  fold (findall URL_REGEX_COMPILED message) in Hall, E, Hnone.
  eexists. exists skipped. split; [apply split_message_by_link_eq|].
  split; [exact Hall|]. split; [exact E|]. split.
  - apply concat_segments_of.
  - set (rest := rest_of message (findall URL_REGEX_COMPILED message)) in *.
    unfold findall. rewrite findall_from_URL_eq, Hnone. reflexivity.
Qed.

Lemma str_eqb_nil_false_inv (a : str) : str_eqb a [] = false -> a <> [].
Proof. destruct a; [discriminate|discriminate]. Qed.

Lemma add_match_nonempty parts m :
  Forall (fun p : str => p <> []) parts ->
  Forall (fun p : str => p <> []) (add_match parts m).
Proof.
  intros H. unfold add_match.
  destruct (str_eqb (group_text m 1) []) eqn:E1;
    destruct (str_eqb (group_text m 2) []) eqn:E2;
    repeat (apply Forall_app; split); try exact H;
    repeat constructor; apply str_eqb_nil_false_inv; assumption.
Qed.

Lemma fold_add_match_nonempty ms parts :
  Forall (fun p : str => p <> []) parts ->
  Forall (fun p : str => p <> []) (fold_left add_match ms parts).
Proof.
  revert parts. induction ms as [|m ms IH]; intros parts H; [exact H|].
  cbn [fold_left]. apply IH, add_match_nonempty, H.
Qed.

(** X3: no segment of a message that is not empty is empty. *)
Theorem split_message_by_link_no_empty_segment message parts :
  message <> [] ->
  split_message_by_link message = Ok parts ->
  Forall (fun p : str => p <> []) parts.
Proof.
  intros Hne. rewrite split_message_by_link_eq. intros [= <-].
  unfold segments_of.
  destruct (findall URL_REGEX_COMPILED message) as [|m ms].
  - repeat constructor. exact Hne.
  - pose proof (fold_add_match_nonempty (m :: ms) [] (List.Forall_nil _)) as H.
    destruct (str_eqb (rest_of message (m :: ms)) []) eqn:E; [exact H|].
    apply Forall_app. split; [exact H|].
    repeat constructor. apply str_eqb_nil_false_inv, E.
Qed.

Lemma split_message_by_link_no_empty_segment_witness :
  lit "http://a.b http://a.b" <> [] /\
  split_message_by_link (lit "http://a.b http://a.b")
  = Ok [lit "http://a.b"; lit " "; lit "http://a.b"] /\
  Forall (fun p : str => p <> [])
         [lit "http://a.b"; lit " "; lit "http://a.b"].
Proof.
  assert (lit "http://a.b http://a.b" <> []) as Hne by discriminate.
  assert (split_message_by_link (lit "http://a.b http://a.b")
          = Ok [lit "http://a.b"; lit " "; lit "http://a.b"]) as Hs
    by (vm_compute; reflexivity).
  split; [exact Hne|]. split; [exact Hs|].
  exact (split_message_by_link_no_empty_segment _ _ Hne Hs).
Defined.

Lemma in_add_match parts m p : In p parts -> In p (add_match parts m).
Proof.
  intros H. unfold add_match.
  destruct (str_eqb (group_text m 1) []);
    destruct (str_eqb (group_text m 2) []);
    repeat (apply in_or_app; left); exact H.
Qed.

Lemma in_fold_add_match ms parts p :
  In p parts -> In p (fold_left add_match ms parts).
Proof.
  revert parts. induction ms as [|m ms IH]; intros parts H; [exact H|].
  cbn [fold_left]. apply IH, in_add_match, H.
Qed.

Lemma in_fold_add_match_link ms parts m :
  In m ms -> link_match m ->
  In (group_text m 2) (fold_left add_match ms parts).
Proof.
  revert parts. induction ms as [|m0 ms IH]; intros parts; [intros []|].
  intros [->|Hin] Hm; cbn [fold_left].
  - apply in_fold_add_match.
    destruct (add_match_link parts m Hm) as (parts' & ->).
    apply in_or_app. right. left. reflexivity.
  - apply IH; assumption.
Qed.

(** Where each match of [findall] lies in the message. *)
Lemma findall_from_URL_places n s pre :
  Forall (fun m =>
            url_segment (group_text m 2) /\
            ends_link (m_rest m) /\
            exists before,
              pre ++ s = before ++ group_text m 2 ++ m_rest m)
         (findall_from n URL_REGEX_COMPILED s).
Proof.
  revert s pre. induction n as [|n IH]; intros s pre; [constructor|].
  rewrite findall_from_URL_eq.
  destruct (re_search URL_REGEX_COMPILED s) as [m|] eqn:Hs; [|constructor].
  apply re_search_URL_found in Hs
    as (d & g & u & Es & _ & _ & Hg2 & Hseg & Hend & _).
  constructor.
  - rewrite Hg2. split; [exact Hseg|]. split; [exact Hend|].
    exists (pre ++ d ++ g). rewrite Es, <- !app_assoc. reflexivity.
  - specialize (IH (m_rest m) (pre ++ d ++ g ++ u)).
    rewrite <- !app_assoc, <- Es in IH. exact IH.
Qed.

(** The links of a message, among its segments. *)
Lemma segments_of_links message :
  exists parts,
    split_message_by_link message = Ok parts /\
    Forall (fun m =>
              In (group_text m 2) parts /\
              url_segment (group_text m 2) /\
              nonspace (group_text m 2) /\
              exists before,
                message = before ++ group_text m 2 ++ m_rest m /\
                ends_link (m_rest m))
           (findall URL_REGEX_COMPILED message).
Proof.
  eexists. split; [apply split_message_by_link_eq|].
  pose proof (findall_from_URL_places (S (List.length message)) message [])
    as H.
  fold (findall URL_REGEX_COMPILED message) in H.
  apply List.Forall_forall. rewrite List.Forall_forall in H.
  intros m Hin. destruct (H m Hin) as (Hseg & Hend & before & E).
  split; [|split; [exact Hseg|split;
             [apply url_segment_nonspace, Hseg|
              exists before; split; [exact E|exact Hend]]]].
  unfold segments_of. revert Hin.
  destruct (findall URL_REGEX_COMPILED message) as [|m0 ms];
    intros Hin; [destruct Hin|].
  pose proof (in_fold_add_match_link (m0 :: ms) [] m Hin Hseg) as Hp.
  destruct (str_eqb _ []); [exact Hp|]. apply in_or_app. left. exact Hp.
Qed.

(** X4: every link that the pattern finds in a message is one of the
    segments; it is a scheme, [http://] or [https://], followed by at
    least one character, has no white space, and ends where the message
    ends or white space follows. *)
Theorem split_message_by_link_links message :
  exists parts,
    split_message_by_link message = Ok parts /\
    Forall (fun m =>
              In (group_text m 2) parts /\
              url_segment (group_text m 2) /\
              nonspace (group_text m 2) /\
              exists before,
                message = before ++ group_text m 2 ++ m_rest m /\
                ends_link (m_rest m))
           (findall URL_REGEX_COMPILED message).
Proof. apply segments_of_links. Qed.


(* ================================================================= *)
(** ** More on the classifier and on what it decides *)

(** X6: how a channel name is classified.  The open-ticket pattern is
    asked first and wins when both match; the closed-ticket pattern is
    asked only when the open one fails; the ticket number is the first
    group of the pattern that matched, read by [int], and it is [None]
    exactly when the channel is [UNKNOWN]. *)
Theorem get_channel_info_classes cfg channel ct n :
  get_channel_info cfg channel = Ok (ct, n) ->
  match ct with
  | OPEN_TICKET =>
      exists res k,
        cached_regex (DISCORD_OPEN_TICKET_CHANNEL_NAME_REGEX cfg)
                     (channel_name channel) = Some res /\
        int_group (DISCORD_OPEN_TICKET_CHANNEL_NAME_REGEX cfg) res 1 = Ok k /\
        n = Some k
  | CLOSED_TICKET =>
      cached_regex (DISCORD_OPEN_TICKET_CHANNEL_NAME_REGEX cfg)
                   (channel_name channel) = None /\
      exists res k,
        cached_regex (DISCORD_CLOSED_TICKET_CHANNEL_NAME_REGEX cfg)
                     (channel_name channel) = Some res /\
        int_group (DISCORD_CLOSED_TICKET_CHANNEL_NAME_REGEX cfg) res 1
        = Ok k /\
        n = Some k
  | UNKNOWN =>
      cached_regex (DISCORD_OPEN_TICKET_CHANNEL_NAME_REGEX cfg)
                   (channel_name channel) = None /\
      cached_regex (DISCORD_CLOSED_TICKET_CHANNEL_NAME_REGEX cfg)
                   (channel_name channel) = None /\
      n = None
  end.
Proof.
  unfold get_channel_info.
  destruct (cached_regex (DISCORD_OPEN_TICKET_CHANNEL_NAME_REGEX cfg) _)
    as [res|] eqn:Ho.
  - destruct (int_group _ res 1) as [k|e] eqn:Hk; cbn [bind_result];
      [|discriminate].
    intros [= <- <-]. eauto.
  - destruct (cached_regex (DISCORD_CLOSED_TICKET_CHANNEL_NAME_REGEX cfg) _)
      as [res|] eqn:Hc.
    + destruct (int_group _ res 1) as [k|e] eqn:Hk; cbn [bind_result];
        [|discriminate].
      intros [= <- <-]. split; [reflexivity|]. eauto.
    + intros [= <- <-]. auto.
Qed.

Lemma get_channel_info_classes_witness :
  get_channel_info suffix_cfg (mkChannel (lit "ticket-7-closed") (lit "url"))
  = Ok (OPEN_TICKET, Some 7) /\
  exists res k,
    cached_regex (DISCORD_OPEN_TICKET_CHANNEL_NAME_REGEX suffix_cfg)
                 (lit "ticket-7-closed") = Some res /\
    int_group (DISCORD_OPEN_TICKET_CHANNEL_NAME_REGEX suffix_cfg) res 1
    = Ok k /\
    Some 7 = Some k.
Proof.
  assert (get_channel_info suffix_cfg
            (mkChannel (lit "ticket-7-closed") (lit "url"))
          = Ok (OPEN_TICKET, Some 7)) as H by (vm_compute; reflexivity).
  split; [exact H|].
  exact (get_channel_info_classes suffix_cfg
           (mkChannel (lit "ticket-7-closed") (lit "url"))
           OPEN_TICKET (Some 7) H).
Defined.

(** X7: [get_channel_info] is called outside every [try]: when it
    raises (the group of the matching pattern is missing or is not an
    integer literal), each handler raises the same exception and
    leaves store, save file, log and requests as they were. *)
Theorem classifier_failure_leaves_handler cfg w channel e st :
  get_channel_info cfg channel = Err e ->
  on_guild_channel_create cfg w channel st = (Err e, st) /\
  on_guild_channel_delete cfg w channel st = (Err e, st) /\
  (forall after, on_guild_channel_update cfg w channel after st = (Err e, st)) /\
  (forall author content mentions attachments,
     on_message cfg w (mkMessage channel author content mentions attachments)
                st
     = (Err e, st)).
Proof.
  intros H.
  unfold on_guild_channel_create, on_guild_channel_delete,
    on_guild_channel_update, on_message, bind, lift.
  cbn [message_channel]. rewrite H. auto.
Qed.

Lemma classifier_failure_leaves_handler_witness :
  let channel := mkChannel (lit "ticket-abc") (lit "url") in
  let e := ValueError (lit "invalid literal for int() with base 10") in
  let w := mkWorld (lit "now") (Replied (lit "id")) in
  get_channel_info loose_cfg channel = Err e /\
  on_guild_channel_create loose_cfg w channel empty_state
  = (Err e, empty_state).
Proof.
  cbv zeta.
  assert (get_channel_info loose_cfg (mkChannel (lit "ticket-abc") (lit "url"))
          = Err (ValueError (lit "invalid literal for int() with base 10")))
    as H by (vm_compute; reflexivity).
  split; [exact H|].
  apply (classifier_failure_leaves_handler loose_cfg
           (mkWorld (lit "now") (Replied (lit "id"))) _ _ empty_state H).
Defined.

(* ================================================================= *)
(** ** The save file, the log and the requests along a run *)

Lemma logger_info_file t : keeps save_file (logger_info t).
Proof. intros st. reflexivity. Qed.

Lemma logger_error_file t : keeps save_file (logger_error t).
Proof. intros st. reflexivity. Qed.

Lemma notion_file w req : keeps save_file (notion w req).
Proof. intros st. unfold notion. destruct (reply w); reflexivity. Qed.

#[local] Hint Resolve logger_info_file logger_error_file notion_file : keeps.

Lemma handle_file cfg w ev st :
  save_file (snd (handle cfg w ev st)) =
  match created cfg (w, ev) with
  | Some (n, page_id) =>
      save_file st ++ py_str_opt n ++ lit "," ++ page_id ++ [LF]
  | None => save_file st
  end.
Proof.
  destruct ev as [user|channel|channel|before after|message];
    unfold created; cbn [snd fst handle].
  - reflexivity.
  - destruct (get_channel_info cfg channel) as [[ct n]|e] eqn:Hi.
    + destruct ct.
      * rewrite (on_guild_channel_create_open _ _ _ _ _ Hi). cbv zeta.
        destruct (reply w); reflexivity.
      * rewrite on_guild_channel_create_other by (rewrite Hi; congruence).
        reflexivity.
      * rewrite on_guild_channel_create_other by (rewrite Hi; congruence).
        reflexivity.
    + rewrite on_guild_channel_create_other by (rewrite Hi; congruence).
      reflexivity.
  - revert st. change (keeps save_file (on_guild_channel_delete cfg w channel)).
    unfold on_guild_channel_delete, close_page. keeps_tac.
  - revert st.
    change (keeps save_file (on_guild_channel_update cfg w before after)).
    unfold on_guild_channel_update, close_page. keeps_tac.
  - revert st. change (keeps save_file (on_message cfg w message)).
    unfold on_message, handle_author_resolution, handle_content_update.
    keeps_tac.
Qed.

(** X8: the store and the save file change together.  An event
    changes them only when it is the creation of a channel classified
    as an open ticket whose record creation succeeds: then the store
    gets the entry and the file the line [n,id]; after any other
    event, and after a failed creation, both are as before. *)
Theorem store_and_save_file_in_step cfg w ev st :
  match created cfg (w, ev) with
  | Some (n, page_id) =>
      TICKET_TO_PAGE_ID (snd (handle cfg w ev st))
      = <[n := page_id]> (TICKET_TO_PAGE_ID st) /\
      save_file (snd (handle cfg w ev st))
      = save_file st ++ py_str_opt n ++ lit "," ++ page_id ++ [LF]
  | None =>
      TICKET_TO_PAGE_ID (snd (handle cfg w ev st)) = TICKET_TO_PAGE_ID st /\
      save_file (snd (handle cfg w ev st)) = save_file st
  end.
Proof.
  pose proof (handle_store cfg w ev st) as Hs.
  pose proof (handle_file cfg w ev st) as Hf.
  destruct (created cfg (w, ev)) as [[n page_id]|]; auto.
Qed.

Lemma grows_same {A} k (m : M A) :
  (forall st, log (snd (m st)) = log st /\
              requests (snd (m st)) = requests st) ->
  grows k m.
Proof.
  intros H st. destruct (H st) as [-> ->].
  split; [exists []|exists []]; rewrite app_nil_r; cbn; auto with arith.
Qed.

Lemma grows_ret {A} k (a : A) : grows k (ret a).
Proof. apply grows_same. auto. Qed.

Lemma grows_lift {A} k (r : result A) : grows k (lift r).
Proof. apply grows_same. auto. Qed.

Lemma grows_page_of k n : grows k (page_of n).
Proof.
  apply grows_same. intros st. unfold page_of. destruct (_ !! _); auto.
Qed.

Lemma grows_set_page k n page_id : grows k (set_page n page_id).
Proof. apply grows_same. auto. Qed.

Lemma grows_append_save_file k t : grows k (append_save_file t).
Proof. apply grows_same. auto. Qed.

Lemma grows_logger_info k t : grows k (logger_info t).
Proof.
  intros st. split; [exists [LogInfo t]; reflexivity|].
  exists []. rewrite app_nil_r. cbn. auto with arith.
Qed.

Lemma grows_logger_error k t : grows k (logger_error t).
Proof.
  intros st. split; [exists [LogError t]; reflexivity|].
  exists []. rewrite app_nil_r. cbn. auto with arith.
Qed.

Lemma grows_notion w req : grows 1 (notion w req).
Proof.
  intros st. unfold notion.
  destruct (reply w); cbn [fst snd log requests];
    (split; [exists []; rewrite app_nil_r; reflexivity|]);
    exists [req]; auto.
Qed.

Lemma grows_then {B} k1 k2 (st st1 : State)
      (m : State -> result B * State) :
  ((exists lines, log st1 = log st ++ lines) /\
   (exists sent, requests st1 = requests st ++ sent /\
                 (List.length sent <= k1)%nat)) ->
  ((exists lines, log (snd (m st1)) = log st1 ++ lines) /\
   (exists sent, requests (snd (m st1)) = requests st1 ++ sent /\
                 (List.length sent <= k2)%nat)) ->
  (exists lines, log (snd (m st1)) = log st ++ lines) /\
  (exists sent, requests (snd (m st1)) = requests st ++ sent /\
                (List.length sent <= k1 + k2)%nat).
Proof.
  intros ((l1 & Hl1) & s1 & Hs1 & Hn1) ((l2 & Hl2) & s2 & Hs2 & Hn2).
  split.
  - exists (l1 ++ l2). rewrite Hl2, Hl1, <- app_assoc. reflexivity.
  - exists (s1 ++ s2). rewrite Hs2, Hs1, <- app_assoc, List.length_app.
    split; [reflexivity|lia].
Qed.

Lemma grows_weaken {A} k1 k2 (m : M A) :
  (k1 <= k2)%nat -> grows k1 m -> grows k2 m.
Proof.
  intros Hk H st. destruct (H st) as (Hl & sent & Hs & Hn).
  split; [exact Hl|]. exists sent. split; [exact Hs|lia].
Qed.

Lemma grows_bind {A B} k1 k2 (m : M A) (f : A -> M B) :
  grows k1 m -> (forall a, grows k2 (f a)) -> grows (k1 + k2) (bind m f).
Proof.
  intros Hm Hf st. unfold bind. specialize (Hm st).
  destruct (m st) as [[a|e] st1]; cbn [snd] in Hm.
  - apply (grows_then k1 k2 st st1 (f a)); [exact Hm|apply Hf].
  - cbn [snd]. destruct Hm as (Hl & sent & Hs & Hn).
    split; [exact Hl|]. exists sent. split; [exact Hs|lia].
Qed.

Lemma grows_try_except {A} k (m : M A) (h : exn -> M A) :
  grows k m -> (forall e, grows 0 (h e)) -> grows k (try_except m h).
Proof.
  intros Hm Hh st. unfold try_except. specialize (Hm st).
  destruct (m st) as [[a|e] st1]; cbn [snd] in Hm; [exact Hm|].
  pose proof (grows_then k 0 st st1 (h e) Hm (Hh e st1)) as H.
  rewrite Nat.add_0_r in H. exact H.
Qed.

(** A step that sends nothing before a rest that may send [k]. *)
Lemma grows_bind_first {A B} k (m : M A) (f : A -> M B) :
  grows 0 m -> (forall a, grows k (f a)) -> grows k (bind m f).
Proof. intros Hm Hf. apply (grows_bind 0 k); assumption. Qed.

(** A step that may send [k] before a rest that sends nothing. *)
Lemma grows_bind_last {A B} k (m : M A) (f : A -> M B) :
  grows k m -> (forall a, grows 0 (f a)) -> grows k (bind m f).
Proof.
  intros Hm Hf. pose proof (grows_bind k 0 m f Hm Hf) as H.
  rewrite Nat.add_0_r in H. exact H.
Qed.

Ltac grows_tac :=
  lazymatch goal with
  | |- grows _ (bind _ _) =>
      first [ apply grows_bind_first; [solve [grows_tac]|intros ?; grows_tac]
            | apply grows_bind_last; [grows_tac|intros ?; solve [grows_tac]] ]
  | |- grows _ (try_except _ _) =>
      apply grows_try_except; [grows_tac|intros ?; grows_tac]
  | |- grows _ (match ?x with _ => _ end) => destruct x; grows_tac
  | |- grows _ (notion _ _) => apply grows_notion
  | |- grows _ (ret _) => apply grows_ret
  | |- grows _ (lift _) => apply grows_lift
  | |- grows _ (page_of _) => apply grows_page_of
  | |- grows _ (set_page _ _) => apply grows_set_page
  | |- grows _ (append_save_file _) => apply grows_append_save_file
  | |- grows _ (logger_info _) => apply grows_logger_info
  | |- grows _ (logger_error _) => apply grows_logger_error
  end.

Lemma handle_grows cfg w ev : grows 1 (handle cfg w ev).
Proof.
  destruct ev as [user|channel|channel|before after|message]; cbn [handle].
  - unfold on_ready. grows_tac.
  - unfold on_guild_channel_create. grows_tac.
  - unfold on_guild_channel_delete, close_page. grows_tac.
  - unfold on_guild_channel_update, close_page. grows_tac.
  - unfold on_message, handle_author_resolution, handle_content_update.
    grows_tac.
Qed.

Lemma event_loop_grows cfg evs st :
  (exists lines, log (event_loop cfg evs st) = log st ++ lines) /\
  (exists sent,
     requests (event_loop cfg evs st) = requests st ++ sent /\
     (List.length sent <= List.length evs)%nat).
Proof.
  revert st. induction evs as [|[w ev] evs IH]; intros st.
  - split; [exists []|exists []]; cbn; rewrite ?app_nil_r; auto.
  - unfold event_loop in *. cbn [fold_left fst snd].
    destruct (IH (snd (handle cfg w ev st)))
      as ((lines & Hl) & sent & Hr & Hn).
    destruct (handle_grows cfg w ev st) as ((lines0 & Hl0) & sent0 & Hr0 & Hn0).
    split.
    + exists (lines0 ++ lines). rewrite Hl, Hl0, <- app_assoc. reflexivity.
    + exists (sent0 ++ sent). rewrite Hr, Hr0, <- app_assoc, List.length_app.
      split; [reflexivity|]. cbn. lia.
Qed.

(** X9: nothing that was logged or sent is changed or taken back.
    Each event adds at most one request to those sent, and lines to
    the log; so a run adds lines to the log and at most as many
    requests as it has events. *)
Theorem run_grows cfg evs st :
  (forall w ev,
     (exists lines, log (snd (handle cfg w ev st)) = log st ++ lines) /\
     (exists sent,
        requests (snd (handle cfg w ev st)) = requests st ++ sent /\
        (List.length sent <= 1)%nat)) /\
  (exists lines, log (event_loop cfg evs st) = log st ++ lines) /\
  (exists sent,
     requests (event_loop cfg evs st) = requests st ++ sent /\
     (List.length sent <= List.length evs)%nat).
Proof.
  split.
  - intros w ev. apply handle_grows.
  - apply event_loop_grows.
Qed.

Lemma created_number cfg x n page_id :
  created cfg x = Some (n, page_id) -> exists k, n = Some k.
Proof.
  unfold created. destruct (snd x) as [| channel | | |]; try discriminate.
  destruct (get_channel_info cfg channel) as [[ct n0]|e] eqn:Hi;
    [|discriminate].
  destruct ct; try discriminate. destruct (reply (fst x)); [|discriminate].
  intros [= <- <-]. eapply get_channel_info_open_inv; [exact Hi|reflexivity].
Qed.

(** X10: [None] is never stored as a ticket number: a store without
    an entry for [None] has none after any run. *)
Theorem none_is_never_stored cfg evs st :
  TICKET_TO_PAGE_ID st !! None = None ->
  TICKET_TO_PAGE_ID (event_loop cfg evs st) !! None = None.
Proof.
  revert st. induction evs as [|[w ev] evs IH]; intros st H; [exact H|].
  unfold event_loop in *. cbn [fold_left fst snd]. apply IH.
  rewrite handle_store.
  destruct (created cfg (w, ev)) as [[n page_id]|] eqn:Hc; [|exact H].
  apply created_number in Hc as (k & ->).
  rewrite lookup_insert_ne by discriminate. exact H.
Qed.

Lemma none_is_never_stored_witness :
  let evs :=
    [(mkWorld (lit "t1") (Replied (lit "id1")),
      ChannelCreate (mkChannel (lit "ticket-42") (lit "url")));
     (mkWorld (lit "t2") (Replied (lit "id2")),
      ChannelCreate (mkChannel (lit "lobby") (lit "url")))] in
  TICKET_TO_PAGE_ID empty_state !! None = None /\
  TICKET_TO_PAGE_ID (event_loop sample_cfg evs empty_state) !! None = None.
Proof.
  cbv zeta. split; [reflexivity|].
  apply (none_is_never_stored sample_cfg _ empty_state). reflexivity.
Defined.

(* ================================================================= *)
(** ** Tickets that the store does not know *)

(** X11: for a ticket that is not in the store the three users of the
    store differ.  Author resolution looks the ticket up outside its
    [try]: with a user mentioned it raises [KeyError] and changes
    nothing.  Content update and the closing of the page look it up
    inside: they log one error line, send nothing and return. *)
Theorem ticket_not_in_store cfg w channel message ticket_number st :
  TICKET_TO_PAGE_ID st !! ticket_number = None ->
  message_mentions message <> [] ->
  get_channel_info cfg channel = Ok (OPEN_TICKET, ticket_number) ->
  handle_author_resolution w message ticket_number st
  = (Err (KeyError (py_str_opt ticket_number)), st) /\
  handle_content_update w message ticket_number st
  = (Ok tt,
     mkState (TICKET_TO_PAGE_ID st) (save_file st)
             (log st ++ [LogError (lit "Error updating ticket content: "
                                   ++ py_str_opt ticket_number)])
             (requests st)) /\
  on_guild_channel_delete cfg w channel st
  = (Ok tt,
     mkState (TICKET_TO_PAGE_ID st) (save_file st)
             (log st ++ [LogError (lit "Error updating Notion page for ticket "
                                   ++ py_str_opt ticket_number ++ lit ": "
                                   ++ py_str_opt ticket_number)])
             (requests st)).
Proof.
  intros Hn Hm Hi. split; [|split].
  - unfold handle_author_resolution, get_mentioned_users.
    destruct (message_mentions message) as [|u us]; [congruence|].
    cbn [map]. unfold bind, page_of. rewrite Hn. reflexivity.
  - unfold handle_content_update, try_except, bind, page_of.
    rewrite Hn. reflexivity.
  - unfold on_guild_channel_delete, bind, lift. rewrite Hi.
    cbn [ChannelType_eqb negb]. unfold close_page, try_except, bind, page_of.
    rewrite Hn. reflexivity.
Qed.

Lemma ticket_not_in_store_witness :
  let message :=
    mkMessage (mkChannel (lit "ticket-42") (lit "url"))
              (mkUser 7 (lit "Tickets")) (lit "Welcome")
              [mkUser 1 (lit "ann")] [] in
  let w := mkWorld (lit "now") (Replied (lit "ok")) in
  on_message sample_cfg w message empty_state
  = (Err (KeyError (lit "42")), empty_state) /\
  handle_author_resolution w message (Some 42) empty_state
  = (Err (KeyError (py_str_opt (Some 42))), empty_state).
Proof.
  cbv zeta. split; [vm_compute; reflexivity|].
  apply (ticket_not_in_store sample_cfg
           (mkWorld (lit "now") (Replied (lit "ok")))
           (mkChannel (lit "ticket-42") (lit "url"))
           (mkMessage (mkChannel (lit "ticket-42") (lit "url"))
                      (mkUser 7 (lit "Tickets")) (lit "Welcome")
                      [mkUser 1 (lit "ann")] [])
           (Some 42) empty_state).
  - reflexivity.
  - discriminate.
  - vm_compute. reflexivity.
Defined.

(* ================================================================= *)
(** ** Closing a ticket *)

Lemma close_page_sent w ticket_number page_id st :
  TICKET_TO_PAGE_ID st !! ticket_number = Some page_id ->
  close_page w ticket_number st =
  (Ok tt,
   mkState (TICKET_TO_PAGE_ID st) (save_file st)
           (log st ++
            [match reply w with
             | Replied _ =>
                 LogInfo (lit "Updated Notion page for ticket "
                          ++ py_str_opt ticket_number ++ lit " to closed")
             | Failed what =>
                 LogError (lit "Error updating Notion page for ticket "
                           ++ py_str_opt ticket_number ++ lit ": " ++ what)
             end])
           (requests st ++ [PagesUpdateStatus page_id StatusClosed (now w)])).
Proof.
  intros Hp. unfold close_page, try_except, bind, page_of, notion.
  rewrite Hp. destruct (reply w); reflexivity.
Qed.

(** X12: a ticket in the store is closed by the deletion of its
    channel while the name is an open-ticket name, and by a renaming
    from an open-ticket name to a closed-ticket name, where the ticket
    number is read from the new name.  Either sends one request, which
    sets the status of the stored page to closed at the current time,
    and logs one line, the success or the failure of that request. *)
Theorem closing_a_stored_ticket cfg w before after n0 n page0 page_id st :
  get_channel_info cfg before = Ok (OPEN_TICKET, n0) ->
  get_channel_info cfg after = Ok (CLOSED_TICKET, n) ->
  TICKET_TO_PAGE_ID st !! n0 = Some page0 ->
  TICKET_TO_PAGE_ID st !! n = Some page_id ->
  let closed ticket_number page :=
    (Ok tt,
     mkState (TICKET_TO_PAGE_ID st) (save_file st)
             (log st ++
              [match reply w with
               | Replied _ =>
                   LogInfo (lit "Updated Notion page for ticket "
                            ++ py_str_opt ticket_number ++ lit " to closed")
               | Failed what =>
                   LogError (lit "Error updating Notion page for ticket "
                             ++ py_str_opt ticket_number ++ lit ": " ++ what)
               end])
             (requests st
              ++ [PagesUpdateStatus page StatusClosed (now w)])) in
  on_guild_channel_delete cfg w before st = closed n0 page0 /\
  on_guild_channel_update cfg w before after st = closed n page_id.
Proof.
  intros Hb Ha Hp0 Hp closed. subst closed. cbv beta. split.
  - unfold on_guild_channel_delete, bind, lift. rewrite Hb.
    cbn [ChannelType_eqb negb]. apply close_page_sent, Hp0.
  - unfold on_guild_channel_update, bind, lift. rewrite Hb.
    cbn [ChannelType_eqb negb]. rewrite Ha. cbn [ChannelType_eqb negb].
    apply close_page_sent, Hp.
Qed.

Lemma closing_a_stored_ticket_witness :
  let w := mkWorld (lit "now") (Replied (lit "ok")) in
  let st := mkState {[ Some 42 := lit "page42" ]} [] [] [] in
  on_guild_channel_delete sample_cfg w
    (mkChannel (lit "ticket-42") (lit "url")) st
  = (Ok tt,
     mkState {[ Some 42 := lit "page42" ]} []
             [LogInfo (lit "Updated Notion page for ticket 42 to closed")]
             [PagesUpdateStatus (lit "page42") StatusClosed (lit "now")]) /\
  on_guild_channel_update sample_cfg w
    (mkChannel (lit "ticket-42") (lit "url"))
    (mkChannel (lit "closed-42") (lit "url")) st
  = (Ok tt,
     mkState {[ Some 42 := lit "page42" ]} []
             [LogInfo (lit "Updated Notion page for ticket 42 to closed")]
             [PagesUpdateStatus (lit "page42") StatusClosed (lit "now")]).
Proof.
  cbv zeta.
  exact (closing_a_stored_ticket sample_cfg
           (mkWorld (lit "now") (Replied (lit "ok")))
           (mkChannel (lit "ticket-42") (lit "url"))
           (mkChannel (lit "closed-42") (lit "url"))
           (Some 42) (Some 42) (lit "page42") (lit "page42")
           (mkState {[ Some 42 := lit "page42" ]} [] [] [])
           eq_refl eq_refl eq_refl eq_refl).
Defined.

(* ================================================================= *)
(** ** Messages *)



Lemma rt_content_rich_text_of part : rt_content (rich_text_of part) = part.
Proof. unfold rich_text_of. destruct (startswith part _); reflexivity. Qed.

Lemma url_segment_startswith u :
  url_segment u -> startswith u (lit "http") = true.
Proof. intros (scheme & tail & -> & [-> | ->] & _); reflexivity. Qed.

(** What [handle_content_update] does for a ticket in the store. *)
Lemma handle_content_update_sent w message ticket_number page_id st :
  TICKET_TO_PAGE_ID st !! ticket_number = Some page_id ->
  handle_content_update w message ticket_number st =
  let parts := segments_of (message_content message)
                 (findall URL_REGEX_COMPILED (message_content message)) in
  (Ok tt,
   mkState (TICKET_TO_PAGE_ID st) (save_file st)
           (log st ++
            [match reply w with
             | Replied _ =>
                 LogInfo (lit "Updated ticket content for ticket "
                          ++ py_str_opt ticket_number)
             | Failed what =>
                 LogError (lit "Error updating ticket content: " ++ what)
             end])
           (requests st ++
            [BlocksChildrenAppend page_id
               (Paragraph
                  (mkRichText (user_name (message_author message) ++ lit ": ")
                              None true
                   :: map rich_text_of parts)
                :: map Image (message_attachments message))])).
Proof.
  intros Hp. unfold handle_content_update, try_except, bind, page_of, lift.
  rewrite Hp, split_message_by_link_eq. unfold notion.
  destruct (reply w); reflexivity.
Qed.

(** X14: for a ticket in the store a message is sent to its page in
    one request, whatever the message: a paragraph, then one image
    block for each attachment in order.  The paragraph starts with the
    author's name and a colon in bold; every link that the pattern
    finds in the message is in it as a hyperlink to itself; no other
    text is bold, and a text that is a hyperlink links to itself. *)
Theorem content_update_request w message ticket_number page_id st :
  TICKET_TO_PAGE_ID st !! ticket_number = Some page_id ->
  exists texts,
    requests (snd (handle_content_update w message ticket_number st))
    = requests st ++
      [BlocksChildrenAppend page_id
         (Paragraph
            (mkRichText (user_name (message_author message) ++ lit ": ")
                        None true :: texts)
          :: map Image (message_attachments message))] /\
    Forall (fun m =>
              In (mkRichText (group_text m 2) (Some (group_text m 2)) false)
                 texts)
           (findall URL_REGEX_COMPILED (message_content message)) /\
    Forall (fun t =>
              rt_bold t = false /\
              (rt_link t = None \/ rt_link t = Some (rt_content t)))
           texts.
Proof.
  intros Hp. rewrite (handle_content_update_sent _ _ _ _ _ Hp). cbv zeta.
  eexists. split; [reflexivity|]. split.
  - destruct (segments_of_links (message_content message))
      as (parts & Hs & Hall).
    rewrite split_message_by_link_eq in Hs. injection Hs as <-.
    eapply List.Forall_impl; [|exact Hall]. cbn beta.
    intros m (Hin & Hseg & _). apply in_map_iff.
    exists (group_text m 2). split; [|exact Hin].
    unfold rich_text_of. rewrite (url_segment_startswith _ Hseg). reflexivity.
  - apply List.Forall_forall. intros t Ht.
    apply in_map_iff in Ht as (part & <- & _). unfold rich_text_of.
    destruct (startswith part _); cbn; auto.
Qed.

Lemma content_update_request_witness :
  let message :=
    mkMessage (mkChannel (lit "ticket-42") (lit "url"))
              (mkUser 1 (lit "ann")) (lit "see http://a.b now") []
              [lit "http://cdn/x.png"] in
  let st := mkState {[ Some 42 := lit "page42" ]} [] [] [] in
  requests (snd (on_message sample_cfg
                            (mkWorld (lit "now") (Replied (lit "ok")))
                            message st))
  = [BlocksChildrenAppend (lit "page42")
       [Paragraph [mkRichText (lit "ann: ") None true;
                   mkRichText (lit "see ") None false;
                   mkRichText (lit "http://a.b") (Some (lit "http://a.b")) false;
                   mkRichText (lit " now") None false];
        Image (lit "http://cdn/x.png")]] /\
  exists texts,
    requests (snd (handle_content_update
                     (mkWorld (lit "now") (Replied (lit "ok")))
                     message (Some 42) st))
    = requests st ++
      [BlocksChildrenAppend (lit "page42")
         (Paragraph
            (mkRichText (user_name (message_author message) ++ lit ": ")
                        None true :: texts)
          :: map Image (message_attachments message))] /\
    Forall (fun m =>
              In (mkRichText (group_text m 2) (Some (group_text m 2)) false)
                 texts)
           (findall URL_REGEX_COMPILED (message_content message)) /\
    Forall (fun t =>
              rt_bold t = false /\
              (rt_link t = None \/ rt_link t = Some (rt_content t)))
           texts.
Proof.
  cbv zeta. split; [vm_compute; reflexivity|].
  apply (content_update_request
           (mkWorld (lit "now") (Replied (lit "ok")))
           (mkMessage (mkChannel (lit "ticket-42") (lit "url"))
                      (mkUser 1 (lit "ann")) (lit "see http://a.b now") []
                      [lit "http://cdn/x.png"])
           (Some 42) (lit "page42")
           (mkState {[ Some 42 := lit "page42" ]} [] [] [])).
  reflexivity.
Defined.

(** X15: the text of a message without a line feed reaches the page
    whole: the texts of the paragraph after the author's name, put
    together, are the message. *)
Theorem content_update_keeps_one_line w message ticket_number page_id st :
  TICKET_TO_PAGE_ID st !! ticket_number = Some page_id ->
  Forall (fun c => c <> LF) (message_content message) ->
  exists texts,
    requests (snd (handle_content_update w message ticket_number st))
    = requests st ++
      [BlocksChildrenAppend page_id
         (Paragraph
            (mkRichText (user_name (message_author message) ++ lit ": ")
                        None true :: texts)
          :: map Image (message_attachments message))] /\
    concat (map rt_content texts) = message_content message.
Proof.
  intros Hp Hlf. rewrite (handle_content_update_sent _ _ _ _ _ Hp). cbv zeta.
  eexists. split; [reflexivity|].
  rewrite map_map. erewrite map_ext; [|apply rt_content_rich_text_of].
  rewrite map_id.
  destruct (split_message_by_link_one_line _ Hlf) as (parts & Hs & Hc).
  rewrite split_message_by_link_eq in Hs. injection Hs as <-. exact Hc.
Qed.

Lemma content_update_keeps_one_line_witness :
  let message :=
    mkMessage (mkChannel (lit "ticket-42") (lit "url"))
              (mkUser 1 (lit "ann")) (lit "see http://a.b now") [] [] in
  let st := mkState {[ Some 42 := lit "page42" ]} [] [] [] in
  exists texts,
    requests (snd (handle_content_update
                     (mkWorld (lit "now") (Replied (lit "ok")))
                     message (Some 42) st))
    = requests st ++
      [BlocksChildrenAppend (lit "page42")
         (Paragraph
            (mkRichText (user_name (message_author message) ++ lit ": ")
                        None true :: texts)
          :: map Image (message_attachments message))] /\
    concat (map rt_content texts) = message_content message.
Proof.
  cbv zeta.
  apply (content_update_keeps_one_line
           (mkWorld (lit "now") (Replied (lit "ok")))
           (mkMessage (mkChannel (lit "ticket-42") (lit "url"))
                      (mkUser 1 (lit "ann")) (lit "see http://a.b now") [] [])
           (Some 42) (lit "page42")
           (mkState {[ Some 42 := lit "page42" ]} [] [] [])).
  - reflexivity.
  - vm_compute. repeat constructor; discriminate.
Defined.

(* ================================================================= *)
(** ** Numbers written and read back *)

Lemma lit_String c s : lit (String c s) = c :: lit s.
Proof. reflexivity. Qed.

Lemma digits_of_uint_acc d p :
  digits (Z.pos p) ADigit (lit (NilEmpty.string_of_uint d))
  = Some (Z.pos (Pos.of_uint_acc d p)).
Proof.
  revert p. induction d; intros p; cbn [NilEmpty.string_of_uint Pos.of_uint_acc];
    [reflexivity|..]; rewrite lit_String; cbn [digits];
    match goal with
    | |- context [is_digit ?c] =>
        change (is_digit c) with true; cbv iota;
        let v := eval vm_compute in (digit_val c) in
        change (digit_val c) with v
    end;
    rewrite <- IHd; f_equal; lia.
Qed.

Lemma digits_of_uint d prev :
  d <> Decimal.Nil -> prev <> AnUnderscore ->
  digits 0 prev (lit (NilEmpty.string_of_uint d))
  = Some (Z.of_N (Pos.of_uint d)).
Proof.
  revert prev. induction d; intros prev Hd Hp; [congruence|..];
    cbn [NilEmpty.string_of_uint Pos.of_uint]; rewrite lit_String;
    cbn [digits];
    match goal with
    | |- context [is_digit ?c] =>
        change (is_digit c) with true; cbv iota;
        let v := eval vm_compute in (10 * 0 + digit_val c) in
        change (10 * 0 + digit_val c) with v
    end.
  - destruct (Decimal.uint_eq_dec d Decimal.Nil) as [->|Hne];
      [reflexivity|].
    apply IHd; [exact Hne|discriminate].
  - apply digits_of_uint_acc.
  - apply digits_of_uint_acc.
  - apply digits_of_uint_acc.
  - apply digits_of_uint_acc.
  - apply digits_of_uint_acc.
  - apply digits_of_uint_acc.
  - apply digits_of_uint_acc.
  - apply digits_of_uint_acc.
  - apply digits_of_uint_acc.
Qed.

Lemma number_char_plain c :
  number_char c = true ->
  is_space c = false /\ char_eqb c "," = false /\
  char_eqb c LF = false /\ char_eqb c CR = false /\
  char_eqb c "+" = false /\ char_eqb c "_" = false.
Proof.
  destruct c as [[] [] [] [] [] [] [] []]; vm_compute; intros H;
    try discriminate H; repeat split; reflexivity.
Qed.

Lemma uint_text d : Forall (fun c => is_digit c = true)
                           (lit (NilEmpty.string_of_uint d)).
Proof.
  induction d; cbn [NilEmpty.string_of_uint]; [constructor|..];
    rewrite lit_String; constructor; (reflexivity || exact IHd).
Qed.

Lemma uint_text_nonempty d :
  d <> Decimal.Nil -> lit (NilEmpty.string_of_uint d) <> [].
Proof. destruct d; [congruence|..]; intros _; discriminate. Qed.

Lemma pos_text p :
  py_str (Z.pos p) = lit (NilEmpty.string_of_uint (Pos.to_uint p)) /\
  py_str (Z.neg p) = "-"%char :: lit (NilEmpty.string_of_uint (Pos.to_uint p)).
Proof.
  unfold py_str. cbn [Z.to_int NilZero.string_of_int].
  unfold NilZero.string_of_uint.
  pose proof (DecimalPos.Unsigned.to_uint_nonnil p) as H.
  destruct (Pos.to_uint p); [congruence|..]; split; reflexivity.
Qed.

(** The text of a number is digits after at most one minus sign. *)
Lemma py_str_text n : number_text (py_str n) /\ py_str n <> [].
Proof.
  assert (forall s, Forall (fun c => is_digit c = true) s -> number_text s)
    as Hd.
  { intros s. apply List.Forall_impl. intros c Hc. unfold number_char.
    rewrite Hc. reflexivity. }
  destruct n as [|p|p].
  - split; [repeat constructor|discriminate].
  - destruct (pos_text p) as [-> _].
    split; [apply Hd, uint_text|].
    apply uint_text_nonempty, DecimalPos.Unsigned.to_uint_nonnil.
  - destruct (pos_text p) as [_ ->].
    split; [constructor; [reflexivity|apply Hd, uint_text]|discriminate].
Qed.

Lemma lstrip_by_tight sp s :
  match s with
  | [] => True
  | x :: _ => sp x = false
  end ->
  lstrip_by sp s = s.
Proof. destruct s as [|x s]; [reflexivity|]. cbn. intros ->. reflexivity. Qed.

Lemma strip_tight s : tight s -> strip s = s.
Proof.
  intros [H1 H2]. unfold strip, strip_by.
  rewrite (lstrip_by_tight _ s H1), (lstrip_by_tight _ (rev s) H2).
  apply rev_involutive.
Qed.

(** The white space of [int] is white space of [str.strip]. *)
Lemma is_int_space_is_space c : is_space c = false -> is_int_space c = false.
Proof.
  destruct c as [[] [] [] [] [] [] [] []]; vm_compute; intros H;
    first [reflexivity | discriminate H].
Qed.

Lemma int_strip_tight s : tight s -> strip_by is_int_space s = s.
Proof.
  intros [H1 H2]. unfold strip_by.
  rewrite (lstrip_by_tight _ s), (lstrip_by_tight _ (rev s)).
  - apply rev_involutive.
  - destruct (rev s); [exact I|]. apply is_int_space_is_space, H2.
  - destruct s; [exact I|]. apply is_int_space_is_space, H1.
Qed.

(** [strip] takes the line feed off a line whose text is tight. *)
Lemma strip_line s : s <> [] -> tight s -> strip (s ++ [LF]) = s.
Proof.
  intros Hne [H1 H2]. unfold strip, strip_by.
  rewrite (lstrip_by_tight _ (s ++ [LF]))
    by (destruct s; [congruence|exact H1]).
  rewrite rev_app_distr. cbn [rev app lstrip_by].
  change (is_space LF) with true. cbv iota.
  rewrite (lstrip_by_tight _ (rev s) H2). apply rev_involutive.
Qed.

Lemma number_text_tight s : number_text s -> tight s.
Proof.
  intros H. split.
  - destruct s as [|x s]; [exact I|]. inversion H; subst.
    apply number_char_plain. assumption.
  - destruct (rev s) as [|x r] eqn:E; [exact I|].
    assert (In x s) as Hin by (apply in_rev; rewrite E; left; reflexivity).
    unfold number_text in H. rewrite List.Forall_forall in H.
    apply number_char_plain, H, Hin.
Qed.

(** [int] reads back what [str] writes, within the limit on the
    digits. *)
Lemma py_int_py_str n :
  (count_digits (py_str n) <= int_max_str_digits)%nat ->
  py_int (py_str n) = Ok n.
Proof.
  intros Hlim. apply Nat.ltb_ge in Hlim.
  unfold py_int.
  rewrite int_strip_tight by (apply number_text_tight, py_str_text).
  cbv zeta. rewrite Hlim. clear Hlim.
  destruct n as [|p|p].
  - reflexivity.
  - destruct (pos_text p) as [-> _].
    pose proof (DecimalPos.Unsigned.to_uint_nonnil p) as Hnn.
    pose proof (uint_text (Pos.to_uint p)) as Ht.
    pose proof (digits_of_uint (Pos.to_uint p) NoChar Hnn ltac:(discriminate))
      as Hd.
    rewrite DecimalPos.Unsigned.of_to in Hd.
    destruct (lit (NilEmpty.string_of_uint (Pos.to_uint p))) as [|c t] eqn:E.
    + exfalso. eapply uint_text_nonempty; eassumption.
    + inversion Ht as [|? ? Hc _]; subst.
      assert (number_char c = true) as Hn
          by (unfold number_char; rewrite Hc; reflexivity).
      assert (char_eqb c "-" = false) as ->.
      { destruct (char_eqb c "-") eqn:Em; [|reflexivity].
        apply char_eqb_eq in Em. subst c. vm_compute in Hc. discriminate. }
      destruct (number_char_plain c Hn) as (_ & _ & _ & _ & -> & _).
      rewrite Hd. reflexivity.
  - destruct (pos_text p) as [_ ->].
    pose proof (DecimalPos.Unsigned.to_uint_nonnil p) as Hnn.
    change (char_eqb "-" "-") with true. cbv iota.
    rewrite (digits_of_uint (Pos.to_uint p) NoChar Hnn ltac:(discriminate)).
    rewrite DecimalPos.Unsigned.of_to. reflexivity.
Qed.

(* ================================================================= *)
(** ** The numbers that [int] returns are within the limit of [str] *)

Lemma is_digit_cases c :
  is_digit c = true ->
  c = "0"%char \/ c = "1"%char \/ c = "2"%char \/ c = "3"%char \/
  c = "4"%char \/ c = "5"%char \/ c = "6"%char \/ c = "7"%char \/
  c = "8"%char \/ c = "9"%char.
Proof.
  destruct c as [[] [] [] [] [] [] [] []]; vm_compute; intros H;
    try discriminate H; tauto.
Qed.

Lemma count_digits_digit c s :
  is_digit c = true -> count_digits (c :: s) = S (count_digits s).
Proof.
  intros H. unfold count_digits. cbn [List.filter]. rewrite H. reflexivity.
Qed.

Lemma count_digits_other c s :
  is_digit c = false -> count_digits (c :: s) = count_digits s.
Proof.
  intros H. unfold count_digits. cbn [List.filter]. rewrite H. reflexivity.
Qed.

Lemma count_digits_uint d :
  count_digits (lit (NilEmpty.string_of_uint d)) = Decimal.nb_digits d.
Proof.
  induction d; cbn [NilEmpty.string_of_uint Decimal.nb_digits];
    [reflexivity|..]; rewrite lit_String, count_digits_digit, IHd;
    reflexivity.
Qed.

(** The digits of a literal, as a decimal number of the library. *)
Lemma digits_uint_acc s prev p v :
  digits (Z.pos p) prev s = Some v ->
  exists d,
    Decimal.nb_digits d = count_digits s /\
    v = Z.pos (Pos.of_uint_acc d p).
Proof.
  revert prev p. induction s as [|c s IH]; intros prev p; cbn [digits].
  - destruct prev; try discriminate. intros [= <-].
    exists Decimal.Nil. split; reflexivity.
  - destruct (is_digit c) eqn:Hc.
    + rewrite (count_digits_digit c s Hc).
      destruct (is_digit_cases c Hc)
        as [->|[->|[->|[->|[->|[->|[->|[->|[->| ->]]]]]]]]];
        match goal with
        | |- context [digit_val ?c] =>
            let v := eval vm_compute in (digit_val c) in
            change (digit_val c) with v
        end;
        intros H.
      * replace (10 * Z.pos p + 0) with (Z.pos (10 * p)) in H by lia.
        destruct (IH _ _ H) as (d & Hn & ->).
        exists (Decimal.D0 d). cbn. rewrite Hn. split; reflexivity.
      * replace (10 * Z.pos p + 1) with (Z.pos (1 + 10 * p)) in H by lia.
        destruct (IH _ _ H) as (d & Hn & ->).
        exists (Decimal.D1 d). cbn. rewrite Hn. split; reflexivity.
      * replace (10 * Z.pos p + 2) with (Z.pos (2 + 10 * p)) in H by lia.
        destruct (IH _ _ H) as (d & Hn & ->).
        exists (Decimal.D2 d). cbn. rewrite Hn. split; reflexivity.
      * replace (10 * Z.pos p + 3) with (Z.pos (3 + 10 * p)) in H by lia.
        destruct (IH _ _ H) as (d & Hn & ->).
        exists (Decimal.D3 d). cbn. rewrite Hn. split; reflexivity.
      * replace (10 * Z.pos p + 4) with (Z.pos (4 + 10 * p)) in H by lia.
        destruct (IH _ _ H) as (d & Hn & ->).
        exists (Decimal.D4 d). cbn. rewrite Hn. split; reflexivity.
      * replace (10 * Z.pos p + 5) with (Z.pos (5 + 10 * p)) in H by lia.
        destruct (IH _ _ H) as (d & Hn & ->).
        exists (Decimal.D5 d). cbn. rewrite Hn. split; reflexivity.
      * replace (10 * Z.pos p + 6) with (Z.pos (6 + 10 * p)) in H by lia.
        destruct (IH _ _ H) as (d & Hn & ->).
        exists (Decimal.D6 d). cbn. rewrite Hn. split; reflexivity.
      * replace (10 * Z.pos p + 7) with (Z.pos (7 + 10 * p)) in H by lia.
        destruct (IH _ _ H) as (d & Hn & ->).
        exists (Decimal.D7 d). cbn. rewrite Hn. split; reflexivity.
      * replace (10 * Z.pos p + 8) with (Z.pos (8 + 10 * p)) in H by lia.
        destruct (IH _ _ H) as (d & Hn & ->).
        exists (Decimal.D8 d). cbn. rewrite Hn. split; reflexivity.
      * replace (10 * Z.pos p + 9) with (Z.pos (9 + 10 * p)) in H by lia.
        destruct (IH _ _ H) as (d & Hn & ->).
        exists (Decimal.D9 d). cbn. rewrite Hn. split; reflexivity.
    + rewrite (count_digits_other c s Hc).
      destruct (char_eqb c "_"); [|discriminate].
      destruct prev; try discriminate. apply IH.
Qed.

Lemma digits_uint s prev v :
  digits 0 prev s = Some v ->
  exists d,
    Decimal.nb_digits d = count_digits s /\
    v = Z.of_N (Pos.of_uint d).
Proof.
  revert prev. induction s as [|c s IH]; intros prev; cbn [digits].
  - destruct prev; try discriminate. intros [= <-].
    exists Decimal.Nil. split; reflexivity.
  - destruct (is_digit c) eqn:Hc.
    + rewrite (count_digits_digit c s Hc).
      destruct (is_digit_cases c Hc)
        as [->|[->|[->|[->|[->|[->|[->|[->|[->| ->]]]]]]]]];
        match goal with
        | |- context [digit_val ?c] =>
            let v := eval vm_compute in (10 * 0 + digit_val c) in
            change (10 * 0 + digit_val c) with v
        end;
        intros H;
        [destruct (IH _ H) as (d & Hn & ->);
         exists (Decimal.D0 d); cbn; rewrite Hn; split; reflexivity
        |destruct (digits_uint_acc _ _ _ _ H) as (d & Hn & ->)..].
      * exists (Decimal.D1 d). cbn. rewrite Hn. split; reflexivity.
      * exists (Decimal.D2 d). cbn. rewrite Hn. split; reflexivity.
      * exists (Decimal.D3 d). cbn. rewrite Hn. split; reflexivity.
      * exists (Decimal.D4 d). cbn. rewrite Hn. split; reflexivity.
      * exists (Decimal.D5 d). cbn. rewrite Hn. split; reflexivity.
      * exists (Decimal.D6 d). cbn. rewrite Hn. split; reflexivity.
      * exists (Decimal.D7 d). cbn. rewrite Hn. split; reflexivity.
      * exists (Decimal.D8 d). cbn. rewrite Hn. split; reflexivity.
      * exists (Decimal.D9 d). cbn. rewrite Hn. split; reflexivity.
    + rewrite (count_digits_other c s Hc).
      destruct (char_eqb c "_"); [|discriminate].
      destruct prev; try discriminate. apply IH.
Qed.

(** A number that a literal stands for is written with no more digits
    than the literal has. *)
Lemma digits_written s v :
  digits 0 NoChar s = Some v ->
  (count_digits (py_str v) <= Nat.max 1 (count_digits s))%nat /\
  (count_digits (py_str (- v)) <= Nat.max 1 (count_digits s))%nat.
Proof.
  intros H. apply digits_uint in H as (d & Hn & ->).
  pose proof (DecimalPos.Unsigned.to_of d) as Hto.
  destruct (Pos.of_uint d) as [|p] eqn:Hd.
  - change (count_digits (py_str (Z.of_N 0))) with 1%nat.
    change (count_digits (py_str (- Z.of_N 0))) with 1%nat.
    split; lia.
  - cbn [N.to_uint] in Hto.
    assert (d <> Decimal.Nil) as Hne by (intros ->; discriminate Hd).
    pose proof (DecimalFacts.nb_digits_unorm d Hne) as Hle.
    rewrite <- Hto, Hn in Hle.
    change (Z.of_N (N.pos p)) with (Z.pos p).
    change (- Z.pos p) with (Z.neg p).
    destruct (pos_text p) as [-> ->].
    rewrite count_digits_other by reflexivity.
    rewrite count_digits_uint. split; lia.
Qed.

Lemma count_digits_cons c s :
  (count_digits s <= count_digits (c :: s))%nat.
Proof.
  destruct (is_digit c) eqn:Hc;
    [rewrite count_digits_digit by exact Hc|
     rewrite count_digits_other by exact Hc]; lia.
Qed.

(** What [int] returns, [str] writes within the limit. *)
Lemma py_int_in_limit s n :
  py_int s = Ok n ->
  (count_digits (py_str n) <= int_max_str_digits)%nat.
Proof.
  unfold py_int. cbv zeta.
  destruct (strip_by is_int_space s) as [|c t]; [discriminate|].
  pose proof (count_digits_cons c t) as Hct.
  assert (1 <= int_max_str_digits)%nat as H1
      by (unfold int_max_str_digits; lia).
  destruct (char_eqb c "-").
  - destruct (digits 0 NoChar t) as [v|] eqn:Hv; cbn [option_map];
      [|discriminate].
    destruct (_ <? _)%nat eqn:Hlim; [discriminate|]. intros [= <-].
    apply Nat.ltb_ge in Hlim. apply digits_written in Hv as [_ Hv]. lia.
  - destruct (char_eqb c "+").
    + destruct (digits 0 NoChar t) as [v|] eqn:Hv; [|discriminate].
      destruct (_ <? _)%nat eqn:Hlim; [discriminate|]. intros [= <-].
      apply Nat.ltb_ge in Hlim. apply digits_written in Hv as [Hv _]. lia.
    + destruct (digits 0 NoChar (c :: t)) as [v|] eqn:Hv; [|discriminate].
      destruct (_ <? _)%nat eqn:Hlim; [discriminate|]. intros [= <-].
      apply Nat.ltb_ge in Hlim. apply digits_written in Hv as [Hv _]. lia.
Qed.

(** [int] reads back the text of a number that it returned. *)
Lemma py_int_again s n : py_int s = Ok n -> py_int (py_str n) = Ok n.
Proof. intros H. apply py_int_py_str, (py_int_in_limit s), H. Qed.

(** The ticket number of a classified channel comes from [int]. *)
Lemma get_channel_info_number cfg channel ct k :
  get_channel_info cfg channel = Ok (ct, Some k) ->
  exists g, py_int g = Ok k.
Proof.
  unfold get_channel_info, int_group.
  destruct (cached_regex _ _) as [res|].
  - destruct (group _ res 1) as [[g|]|e]; cbn [bind_result];
      [|discriminate..].
    destruct (py_int g) as [n|e] eqn:Hg; cbn [bind_result]; [|discriminate].
    intros [= _ <-]. eauto.
  - destruct (cached_regex _ _) as [res|]; [|discriminate].
    destruct (group _ res 1) as [[g|]|e]; cbn [bind_result];
      [|discriminate..].
    destruct (py_int g) as [n|e] eqn:Hg; cbn [bind_result]; [|discriminate].
    intros [= _ <-]. eauto.
Qed.

(* ================================================================= *)
(** ** A line of the save file *)

Lemma split_from_no_comma n piece b :
  Forall (fun c => char_eqb c "," = false) b ->
  (List.length b < n)%nat ->
  split_from n (lit ",") piece b = [piece ++ b].
Proof.
  intros Hb Hn. apply split_from_none; [|exact Hn].
  intros R1 R2 E. destruct R2 as [|x R2]; [reflexivity|].
  cbn [lit list_ascii_of_string strip_prefix].
  rewrite E in Hb. apply Forall_app in Hb as [_ Hb].
  inversion Hb as [|? ? Hx _]; subst.
  assert (char_eqb "," x = false) as ->; [|reflexivity].
  destruct (char_eqb "," x) eqn:Ex; [|reflexivity].
  apply char_eqb_eq in Ex. subst x. discriminate.
Qed.

Lemma split_from_S n sep piece s :
  split_from (S n) sep piece s =
  match strip_prefix sep s with
  | Some rest => piece :: split_from n sep [] rest
  | None =>
      match s with
      | [] => [piece]
      | x :: s' => split_from n sep (piece ++ [x]) s'
      end
  end.
Proof. reflexivity. Qed.

Lemma split_from_comma n piece a b :
  Forall (fun c => char_eqb c "," = false) a ->
  Forall (fun c => char_eqb c "," = false) b ->
  (List.length (a ++ lit "," ++ b) < n)%nat ->
  split_from n (lit ",") piece (a ++ lit "," ++ b) = [piece ++ a; b].
Proof.
  intros Ha Hb. revert n piece.
  induction Ha as [|x a Hx Ha IH]; intros n piece Hn.
  - destruct n as [|n]; [lia|]. rewrite split_from_S.
    change ([] ++ lit "," ++ b) with (lit "," ++ b).
    rewrite strip_prefix_of_app.
    rewrite (split_from_no_comma n [] b Hb)
      by (cbn in Hn; lia).
    rewrite app_nil_r. reflexivity.
  - destruct n as [|n]; [lia|]. rewrite split_from_S.
    change ((x :: a) ++ lit "," ++ b) with (x :: (a ++ lit "," ++ b)).
    assert (strip_prefix (lit ",") (x :: a ++ lit "," ++ b) = None) as ->.
    { cbn [lit list_ascii_of_string strip_prefix].
      destruct (char_eqb "," x) eqn:Ex; [|reflexivity].
      apply char_eqb_eq in Ex. subst x. discriminate. }
    rewrite IH
      by (change (S (List.length (a ++ lit "," ++ b)) < S n)%nat in Hn; lia).
    rewrite <- app_assoc. reflexivity.
Qed.

Lemma py_split_comma a b :
  Forall (fun c => char_eqb c "," = false) a ->
  Forall (fun c => char_eqb c "," = false) b ->
  py_split (a ++ lit "," ++ b) (lit ",") = Ok [a; b].
Proof.
  intros Ha Hb.
  pose proof (split_from_comma (S (List.length (a ++ lit "," ++ b))) [] a b
                Ha Hb (Nat.lt_succ_diag_r _)) as H.
  unfold py_split. exact (f_equal Ok H).
Qed.

Lemma clean_id_spec id :
  clean_id id = true ->
  Forall (fun c => char_eqb c "," = false) id /\
  Forall (fun c => char_eqb c LF = false /\ char_eqb c CR = false) id /\
  match rev id with
  | [] => True
  | x :: _ => is_space x = false
  end.
Proof.
  unfold clean_id. intros H. apply andb_true_iff in H as [H1 H2].
  rewrite forallb_forall in H1. split; [|split].
  - apply List.Forall_forall. intros c Hc. specialize (H1 c Hc).
    apply negb_true_iff, orb_false_iff in H1 as [H1 _].
    apply orb_false_iff in H1 as [H1 _]. exact H1.
  - apply List.Forall_forall. intros c Hc. specialize (H1 c Hc).
    apply negb_true_iff, orb_false_iff in H1 as [H1 H3].
    apply orb_false_iff in H1 as [_ H1]. auto.
  - destruct (rev id); [exact I|]. apply negb_true_iff, H2.
Qed.

Lemma number_text_spec s :
  number_text s ->
  Forall (fun c => char_eqb c "," = false) s /\
  Forall (fun c => char_eqb c LF = false /\ char_eqb c CR = false) s.
Proof.
  intros H. split; (eapply List.Forall_impl; [|exact H]); cbn beta;
    intros c Hc; apply number_char_plain in Hc; tauto.
Qed.

(** The text of a line that channel creation writes: number, comma,
    identifier. *)
Lemma line_tight n id :
  clean_id id = true ->
  py_str n ++ lit "," ++ id <> [] /\ tight (py_str n ++ lit "," ++ id).
Proof.
  intros Hid. destruct (py_str_text n) as [Ht Hne].
  apply number_text_tight in Ht as [Hh _].
  apply clean_id_spec in Hid as (_ & _ & Hl).
  split; [destruct (py_str n); [congruence|discriminate]|]. split.
  - destruct (py_str n); [congruence|exact Hh].
  - rewrite !rev_app_distr. destruct (rev id) as [|x r]; [reflexivity|].
    exact Hl.
Qed.

(** The loop of start-up reads a line that channel creation wrote as
    the entry that channel creation stored. *)
Lemma load_line_written store n id :
  py_int (py_str n) = Ok n ->
  clean_id id = true ->
  load_line store (py_str n ++ lit "," ++ id ++ [LF])
  = Ok (<[Some n := id]> store).
Proof.
  intros Hint Hid. unfold load_line.
  destruct (line_tight n id Hid) as [Hne Ht].
  replace (py_str n ++ lit "," ++ id ++ [LF])
    with ((py_str n ++ lit "," ++ id) ++ [LF])
    by (rewrite <- !app_assoc; reflexivity).
  rewrite (strip_line _ Hne Ht).
  destruct (py_str_text n) as [Hn _].
  apply number_text_spec in Hn as [Hn _].
  apply clean_id_spec in Hid as (Hc & _).
  rewrite (py_split_comma (py_str n) id Hn Hc).
  cbn [bind_result]. rewrite Hint. reflexivity.
Qed.

(* ================================================================= *)
(** ** The lines of the save file *)

Lemma file_lines_from_plain cur a rest :
  Forall (fun c => char_eqb c LF = false /\ char_eqb c CR = false) a ->
  file_lines_from cur (a ++ rest) = file_lines_from (cur ++ a) rest.
Proof.
  intros Ha. revert cur. induction Ha as [|x a [H1 H2] _ IH]; intros cur.
  - rewrite app_nil_r. reflexivity.
  - cbn [app file_lines_from]. rewrite H1, H2, IH, <- app_assoc.
    reflexivity.
Qed.

Lemma complete_cons c t : t <> [] -> complete (c :: t) -> complete t.
Proof.
  unfold complete. intros Ht. cbn [rev].
  destruct (rev t) as [|x r] eqn:E; [|auto].
  apply (f_equal (@rev ascii)) in E. rewrite rev_involutive in E.
  cbn in E. congruence.
Qed.

Lemma complete_one c : complete [c] -> c = LF.
Proof. unfold complete. cbn. auto. Qed.

Lemma complete_app text line : complete (text ++ line ++ [LF]).
Proof.
  unfold complete. rewrite app_assoc, rev_app_distr. reflexivity.
Qed.

(** Text appended to a file whose last line is ended starts a line of
    its own. *)
Lemma file_lines_from_complete n cur text more :
  (List.length text <= n)%nat ->
  complete text ->
  text <> [] \/ cur = [] ->
  file_lines_from cur (text ++ more)
  = file_lines_from cur text ++ file_lines_from [] more.
Proof.
  revert cur text. induction n as [|n IH]; intros cur text Hn Hc Hcur.
  - destruct text; [|cbn in Hn; lia].
    destruct Hcur as [?| ->]; [congruence|]. reflexivity.
  - destruct text as [|c t].
    { destruct Hcur as [?| ->]; [congruence|]. reflexivity. }
    cbn [app file_lines_from]. cbn in Hn.
    destruct (char_eqb c LF) eqn:E1.
    { cbn [app]. f_equal. apply IH; [lia| |right; reflexivity].
      destruct t; [exact I|]. eapply complete_cons; [discriminate|exact Hc]. }
    assert (t <> []) as Ht.
    { intros ->. apply complete_one in Hc. subst c.
      rewrite char_eqb_refl in E1. discriminate. }
    pose proof (complete_cons c t Ht Hc) as Hct.
    destruct (char_eqb c CR) eqn:E2.
    + destruct t as [|c' t']; [congruence|]. cbn [app].
      destruct (char_eqb c' LF) eqn:E3.
      * cbn [app]. f_equal. apply IH; [cbn in Hn; lia| |right; reflexivity].
        destruct t'; [exact I|].
        eapply complete_cons; [discriminate|exact Hct].
      * cbn [app]. f_equal.
        apply (IH [] (c' :: t')); [lia|exact Hct|right; reflexivity].
    + apply IH; [lia|exact Hct|left; exact Ht].
Qed.

Lemma file_lines_written text line :
  complete text ->
  Forall (fun c => char_eqb c LF = false /\ char_eqb c CR = false) line ->
  file_lines (text ++ line ++ [LF]) = file_lines text ++ [line ++ [LF]].
Proof.
  intros Hc Hl. unfold file_lines.
  rewrite (file_lines_from_complete (List.length text) [] text)
    by (auto; lia).
  f_equal. rewrite file_lines_from_plain by exact Hl.
  cbn [app file_lines_from]. rewrite char_eqb_refl. reflexivity.
Qed.

Lemma load_lines_app store count lines line :
  load_lines store count (lines ++ [line]) =
  match load_lines store count lines with
  | Ok (store', count') =>
      match load_line store' line with
      | Ok store'' => Ok (store'', S count')
      | Err e => Err e
      end
  | Err e => Err e
  end.
Proof.
  revert store count. induction lines as [|l lines IH]; intros store count.
  - cbn [app load_lines]. destruct (load_line store line); reflexivity.
  - cbn [app load_lines]. destruct (load_line store l) as [store'|e];
      cbn [bind_result]; [apply IH|reflexivity].
Qed.

(* ================================================================= *)
(** ** The save file reads back as the store *)

Lemma handle_saved cfg w ev st :
  clean_reply w = true -> saved st -> saved (snd (handle cfg w ev st)).
Proof.
  intros Hw [Hc (count & Hl)]. unfold saved.
  rewrite handle_store, handle_file. unfold created, clean_reply in *.
  cbn [fst snd].
  destruct ev as [| channel | | |]; try (split; [exact Hc|eauto]).
  destruct (get_channel_info cfg channel) as [[ct n]|e] eqn:Hi;
    try (split; [exact Hc|eauto]).
  destruct ct; try (split; [exact Hc|eauto]).
  destruct (reply w) as [id|]; try (split; [exact Hc|eauto]).
  destruct (get_channel_info_open_inv cfg channel OPEN_TICKET n Hi eq_refl)
    as (k & ->).
  destruct (get_channel_info_number _ _ _ _ Hi) as (g & Hg).
  apply py_int_again in Hg.
  cbn [py_str_opt].
  replace (py_str k ++ lit "," ++ id ++ [LF])
    with ((py_str k ++ lit "," ++ id) ++ [LF])
    by (rewrite <- !app_assoc; reflexivity).
  split; [apply complete_app|].
  exists (S count).
  rewrite file_lines_written.
  - rewrite load_lines_app, Hl.
    replace ((py_str k ++ lit "," ++ id) ++ [LF])
      with (py_str k ++ lit "," ++ id ++ [LF])
      by (rewrite <- !app_assoc; reflexivity).
    rewrite (load_line_written _ k id Hg Hw). reflexivity.
  - exact Hc.
  - destruct (py_str_text k) as [Hk _].
    apply number_text_spec in Hk as [_ Hk].
    apply clean_id_spec in Hw as (_ & Hid & _).
    apply Forall_app. split; [exact Hk|].
    apply Forall_app. split; [repeat constructor|exact Hid].
Qed.

Lemma event_loop_saved cfg evs st :
  Forall (fun x : World * Event => clean_reply (fst x) = true) evs ->
  saved st -> saved (event_loop cfg evs st).
Proof.
  intros Hall. revert st. induction Hall as [|[w ev] evs Hw _ IH];
    intros st Hs; [exact Hs|].
  unfold event_loop in *. cbn [fold_left fst snd].
  apply IH, handle_saved; assumption.
Qed.

Lemma startup_saved file st :
  startup file = Ok st ->
  match file with
  | Some text => complete text
  | None => True
  end ->
  saved st.
Proof.
  unfold startup, saved. destruct file as [text|].
  - destruct (load_lines ∅ 0 (file_lines text)) as [[store count]|e] eqn:Hl;
      cbn [bind_result]; [|discriminate].
    intros [= <-] Hc. cbn [save_file TICKET_TO_PAGE_ID fst].
    split; [exact Hc|]. eauto.
  - intros [= <-] _. cbn. split; [exact I|]. eauto.
Qed.

(** X16: the save file reads back as the store, and stays so.  When
    the loop of start-up would read the save file as the store, it
    still would after any run in which the identifiers that the
    workspace API returns have no comma, no line end and no white
    space at their end. *)
Theorem save_file_reads_back cfg evs st :
  saved st ->
  Forall (fun x : World * Event => clean_reply (fst x) = true) evs ->
  saved (event_loop cfg evs st).
Proof. intros Hs Hall. apply event_loop_saved; assumption. Qed.

Lemma save_file_reads_back_witness :
  let evs :=
    [(mkWorld (lit "t1") (Replied (lit "id1")),
      ChannelCreate (mkChannel (lit "ticket-42") (lit "url")));
     (mkWorld (lit "t2") (Failed (lit "boom")),
      ChannelCreate (mkChannel (lit "ticket-43") (lit "url")));
     (mkWorld (lit "t3") (Replied (lit "id2")),
      ChannelCreate (mkChannel (lit "ticket-42") (lit "url")))] in
  saved empty_state /\
  Forall (fun x : World * Event => clean_reply (fst x) = true) evs /\
  saved (event_loop sample_cfg evs empty_state).
Proof.
  cbv zeta.
  assert (saved empty_state) as H1.
  { split; [exact I|]. exists O. reflexivity. }
  assert (Forall (fun x : World * Event => clean_reply (fst x) = true)
            [(mkWorld (lit "t1") (Replied (lit "id1")),
              ChannelCreate (mkChannel (lit "ticket-42") (lit "url")));
             (mkWorld (lit "t2") (Failed (lit "boom")),
              ChannelCreate (mkChannel (lit "ticket-43") (lit "url")));
             (mkWorld (lit "t3") (Replied (lit "id2")),
              ChannelCreate (mkChannel (lit "ticket-42") (lit "url")))])
    as H2 by (repeat constructor).
  split; [exact H1|]. split; [exact H2|].
  exact (save_file_reads_back sample_cfg _ empty_state H1 H2).
Defined.

(** X17: a restart restores the store.  After a start from no save
    file, or from one whose last line is ended, and any run with such
    identifiers, starting again on the save file succeeds and gives
    the store that the run ended with. *)
Theorem restart_restores_store cfg evs file st0 :
  startup file = Ok st0 ->
  match file with
  | Some text => complete text
  | None => True
  end ->
  Forall (fun x : World * Event => clean_reply (fst x) = true) evs ->
  exists count,
    startup (Some (save_file (event_loop cfg evs st0)))
    = Ok (mkState (TICKET_TO_PAGE_ID (event_loop cfg evs st0))
                  (save_file (event_loop cfg evs st0))
                  [LogInfo (lit "Loaded " ++ py_str (Z.of_nat count)
                            ++ lit " tickets from save file")]
                  []).
Proof.
  intros H0 Hc Hall.
  destruct (event_loop_saved cfg evs st0 Hall (startup_saved file st0 H0 Hc))
    as [_ (count & Hl)].
  exists count. unfold startup. rewrite Hl. reflexivity.
Qed.

Lemma restart_restores_store_witness :
  let evs :=
    [(mkWorld (lit "t1") (Replied (lit "id1")),
      ChannelCreate (mkChannel (lit "ticket-42") (lit "url")));
     (mkWorld (lit "t3") (Replied (lit "id2")),
      ChannelCreate (mkChannel (lit "ticket-7") (lit "url")))] in
  startup None = Ok empty_state /\
  save_file (event_loop sample_cfg evs empty_state)
  = lit "42,id1" ++ [LF] ++ lit "7,id2" ++ [LF] /\
  exists count,
    startup (Some (save_file (event_loop sample_cfg evs empty_state)))
    = Ok (mkState (TICKET_TO_PAGE_ID (event_loop sample_cfg evs empty_state))
                  (save_file (event_loop sample_cfg evs empty_state))
                  [LogInfo (lit "Loaded " ++ py_str (Z.of_nat count)
                            ++ lit " tickets from save file")]
                  []).
Proof.
  cbv zeta. split; [reflexivity|]. split; [vm_compute; reflexivity|].
  apply (restart_restores_store sample_cfg _ None empty_state).
  - reflexivity.
  - exact I.
  - repeat constructor.
Defined.

(* ================================================================= *)
(** ** Save files that stop the start *)

Lemma in_lstrip_by sp c s : In c (lstrip_by sp s) -> In c s.
Proof.
  induction s as [|x s IH]; [auto|]. cbn [lstrip_by].
  destruct (sp x); [right; auto|auto].
Qed.

Lemma in_strip c s : In c (strip s) -> In c s.
Proof.
  unfold strip, strip_by. intros H.
  apply in_rev, in_lstrip_by, in_rev in H.
  apply in_lstrip_by in H. exact H.
Qed.

Lemma load_line_without_comma store line :
  ~ In ","%char line ->
  load_line store line
  = Err (ValueError (lit "not enough values to unpack")).
Proof.
  intros Hno. unfold load_line, py_split.
  change (lit ",") with [","%char] at 1. cbv iota.
  change [","%char] with (lit ",").
  rewrite split_from_no_comma; [reflexivity| |lia].
  apply List.Forall_forall. intros c Hc.
  destruct (char_eqb c ",") eqn:E; [|reflexivity].
  apply char_eqb_eq in E. subst c. exfalso. apply Hno, in_strip, Hc.
Qed.

Lemma load_line_error store line e :
  load_line store line = Err e -> exists what, e = ValueError what.
Proof.
  unfold load_line, py_split. change (lit ",") with [","%char] at 1.
  cbv iota. cbn [bind_result].
  destruct (split_from _ _ _ _) as [|f1 [|f2 [|f3 fs]]];
    try (intros [= <-]; eauto).
  unfold py_int. cbv zeta.
  destruct (match strip_by is_int_space f1 with [] => _ | _ => _ end);
    [destruct (_ <? _)%nat|];
    cbn [bind_result]; [intros [= <-]; eauto|discriminate|intros [= <-]; eauto].
Qed.

Lemma load_lines_stops store count lines line :
  In line lines ->
  (forall store', exists what, load_line store' line = Err (ValueError what)) ->
  exists what, load_lines store count lines = Err (ValueError what).
Proof.
  revert store count. induction lines as [|l lines IH];
    intros store count Hin Hbad; [destruct Hin|].
  cbn [load_lines]. destruct (load_line store l) as [store'|e] eqn:Hl.
  - cbn [bind_result]. destruct Hin as [->|Hin].
    + destruct (Hbad store) as (what & H). congruence.
    + apply IH; assumption.
  - cbn [bind_result]. apply load_line_error in Hl as (what & ->). eauto.
Qed.

(** X18: a line without a comma in the save file, a blank line among
    them, stops the program at start-up: the unpacking of the line
    raises [ValueError] outside any [try], whatever the other lines
    are. *)
Theorem startup_stops_at_line_without_comma text line :
  In line (file_lines text) ->
  ~ In ","%char line ->
  exists what, startup (Some text) = Err (ValueError what).
Proof.
  intros Hin Hno. unfold startup.
  destruct (load_lines_stops ∅ 0 (file_lines text) line Hin) as (what & ->).
  - intros store'. rewrite load_line_without_comma by exact Hno. eauto.
  - cbn [bind_result]. eauto.
Qed.

Lemma startup_stops_at_line_without_comma_witness :
  let text := lit "42,id1" ++ [LF] ++ [LF] ++ lit "7,id2" ++ [LF] in
  In [LF] (file_lines text) /\
  ~ In ","%char [LF] /\
  exists what, startup (Some text) = Err (ValueError what).
Proof.
  cbv zeta.
  assert (In [LF] (file_lines (lit "42,id1" ++ [LF] ++ [LF]
                                 ++ lit "7,id2" ++ [LF]))) as H1
    by (vm_compute; right; left; reflexivity).
  assert (~ In ","%char [LF]) as H2
    by (intros [H|[]]; vm_compute in H; discriminate).
  split; [exact H1|]. split; [exact H2|].
  exact (startup_stops_at_line_without_comma _ _ H1 H2).
Defined.

(* ================================================================= *)
(** ** Channels that are not the ticket an event is waiting for *)

(** X19: the channel handlers act on open tickets only.  The creation
    or the deletion of a channel that is classified as anything but an
    open ticket changes nothing, and neither does an update whose old
    name is not an open ticket, whatever the new name is. *)
Theorem channel_events_ignored cfg w channel ct n st :
  get_channel_info cfg channel = Ok (ct, n) ->
  ct <> OPEN_TICKET ->
  on_guild_channel_create cfg w channel st = (Ok tt, st) /\
  on_guild_channel_delete cfg w channel st = (Ok tt, st) /\
  forall after, on_guild_channel_update cfg w channel after st = (Ok tt, st).
Proof.
  intros Hi Hct.
  unfold on_guild_channel_create, on_guild_channel_delete,
    on_guild_channel_update, bind, lift.
  rewrite Hi. destruct ct; [congruence| |]; auto.
Qed.

Lemma channel_events_ignored_witness :
  let w := mkWorld (lit "now") (Replied (lit "ok")) in
  let st := mkState {[ Some 42 := lit "page42" ]} [] [] [] in
  get_channel_info sample_cfg (mkChannel (lit "closed-42") (lit "url"))
  = Ok (CLOSED_TICKET, Some 42) /\
  on_guild_channel_delete sample_cfg w
    (mkChannel (lit "closed-42") (lit "url")) st
  = (Ok tt, st).
Proof.
  cbv zeta.
  assert (get_channel_info sample_cfg (mkChannel (lit "closed-42") (lit "url"))
          = Ok (CLOSED_TICKET, Some 42)) as H by (vm_compute; reflexivity).
  split; [exact H|].
  destruct (channel_events_ignored sample_cfg
              (mkWorld (lit "now") (Replied (lit "ok")))
              (mkChannel (lit "closed-42") (lit "url"))
              CLOSED_TICKET (Some 42)
              (mkState {[ Some 42 := lit "page42" ]} [] [] []) H
              ltac:(discriminate))
    as (_ & Hd & _).
  exact Hd.
Defined.

(** X20: a renaming of an open ticket closes nothing unless the new
    name is a closed-ticket name: from one open-ticket name to
    another, or to a name that is no ticket, it changes nothing. *)
Theorem rename_to_other_than_closed_ignored cfg w before after n0 ct n st :
  get_channel_info cfg before = Ok (OPEN_TICKET, n0) ->
  get_channel_info cfg after = Ok (ct, n) ->
  ct <> CLOSED_TICKET ->
  on_guild_channel_update cfg w before after st = (Ok tt, st).
Proof.
  intros Hb Ha Hct. unfold on_guild_channel_update, bind, lift.
  rewrite Hb. cbn [ChannelType_eqb negb]. rewrite Ha.
  destruct ct; [reflexivity|congruence|reflexivity].
Qed.

Lemma rename_to_other_than_closed_ignored_witness :
  let st := mkState {[ Some 42 := lit "page42" ]} [] [] [] in
  on_guild_channel_update sample_cfg
    (mkWorld (lit "now") (Replied (lit "ok")))
    (mkChannel (lit "ticket-42") (lit "url"))
    (mkChannel (lit "ticket-43") (lit "url")) st
  = (Ok tt, st).
Proof.
  cbv zeta.
  apply (rename_to_other_than_closed_ignored sample_cfg _ _ _
           (Some 42) OPEN_TICKET (Some 43)).
  - vm_compute. reflexivity.
  - vm_compute. reflexivity.
  - discriminate.
Defined.
